(** * Export serializer: a shallow embedding of [src/common/export_serializer.h]

    The header defines two cursor classes over caller-owned memory:
    [ExportSerializeInput] (a read cursor) and [ExportSerializeOutput]
    (a write cursor over a buffer of fixed capacity).  Both are embedded
    here as state-passing functions, one per C++ method, and the
    properties of the specification are stated and settled against them.

    Modelling conventions.
    - A byte is [Init.Byte.byte]; memory is a list of bytes and a pointer
      into it is an offset (a [Z]) from the start of the underlying storage;
      pointer arithmetic is exact.  An access that leaves the storage has
      no defined behaviour in C++ and yields the outcome [Undefined].
    - A pointer is 64 bits wide, and [current_ += length] and
      [current_ -= bytes] wrap with it.  The exact offsets agree with the
      pointers as long as the address they stand for stays inside the
      address space.  The objects of a process lie above its first page and
      in the lower half of the address space ([first_page],
      [address_space_half]); the statements about a cursor that is moved out
      of its buffer bound the requested length accordingly.
    - [std::string(p, n)] throws [std::length_error] when [n] exceeds
      [max_size()], before it copies anything (outcome [Throws]).
    - [size_t] is 64 bits wide; sums of [size_t] values wrap modulo 2^64.
    - [assert] follows <cassert>: it aborts the process when its operand is
      false, unless the translation unit is compiled with [NDEBUG], in which
      case it does nothing.  The build is a parameter ([Build]).
    - The "native layout" of a multi-byte integer is the host byte order,
      also a field of [Build].  Plain [char] is signed, as on the x86-64
      hosts the project targets.
    - A [float] or [double] value is represented by its IEEE-754 bit
      pattern: the serializer only ever touches it through [memcpy]. *)

From Stdlib Require Import ZArith List Lia Bool.
From coqutil Require Import Byte Word.LittleEndianList.
Import ListNotations.
Local Open Scope Z_scope.

(** ** Build parameters *)

Class Build := {
  NDEBUG : bool;      (* assertions compiled out *)
  big_endian : bool   (* host byte order *)
}.

Definition debug_le : Build := {| NDEBUG := false; big_endian := false |}.
Definition release_le : Build := {| NDEBUG := true; big_endian := false |}.
Definition debug_be : Build := {| NDEBUG := false; big_endian := true |}.

(** ** Memory *)

Module Mem.

Definition storage := list byte.

Definition size (m : storage) : Z := Z.of_nat (length m).

(** The [n] bytes at offset [off] lie inside [m]. *)
Definition in_bounds (m : storage) (off n : Z) : bool :=
  (0 <=? off) && (0 <=? n) && (off + n <=? size m).

Definition slice (m : storage) (off n : Z) : list byte :=
  firstn (Z.to_nat n) (skipn (Z.to_nat off) m).

(** Source side of [memcpy]: read [n] bytes at [off]. *)
Definition load (m : storage) (off n : Z) : option (list byte) :=
  if in_bounds m off n then Some (slice m off n) else None.

Definition splice (m : storage) (off : Z) (bs : list byte) : storage :=
  firstn (Z.to_nat off) m ++ bs ++ skipn (Z.to_nat off + length bs) m.

(** Destination side of [memcpy] / [memset]: overwrite at [off]. *)
Definition store (m : storage) (off : Z) (bs : list byte) : option storage :=
  if in_bounds m off (Z.of_nat (length bs)) then Some (splice m off bs) else None.

(** The byte at offset [i], if any. *)
Definition byte_at (m : storage) (i : Z) : option byte :=
  if 0 <=? i then nth_error m (Z.to_nat i) else None.

End Mem.

(** ** Scalar types and their object representation *)

Inductive ctype :=
| char_t | int8_t | int16_t | uint16_t | int32_t | int64_t | size_t
| float_t | double_t.

Definition sizeof (T : ctype) : nat :=
  match T with
  | char_t | int8_t => 1
  | int16_t | uint16_t => 2
  | int32_t | float_t => 4
  | int64_t | size_t | double_t => 8
  end%nat.

(** [float_t] and [double_t] values are bit patterns, hence unsigned. *)
Definition is_signed (T : ctype) : bool :=
  match T with
  | char_t | int8_t | int16_t | int32_t | int64_t => true
  | uint16_t | size_t | float_t | double_t => false
  end.

Definition bits (T : ctype) : Z := 8 * Z.of_nat (sizeof T).

Definition min_value (T : ctype) : Z :=
  if is_signed T then - 2 ^ (bits T - 1) else 0.

Definition max_value (T : ctype) : Z :=
  if is_signed T then 2 ^ (bits T - 1) - 1 else 2 ^ bits T - 1.

Definition in_range (T : ctype) (v : Z) : Prop :=
  min_value T <= v <= max_value T.

Definition in_rangeb (T : ctype) (v : Z) : bool :=
  (min_value T <=? v) && (v <=? max_value T).

(** Two's-complement reduction to [n] bits. *)
Definition swrap (n v : Z) : Z := (v + 2 ^ (n - 1)) mod 2 ^ n - 2 ^ (n - 1).

(** [static_cast<T>(v)] and the implicit integral conversions: modular. *)
Definition cast (T : ctype) (v : Z) : Z :=
  if is_signed T then swrap (bits T) v else v mod 2 ^ bits T.

(** [size_t] addition. *)
Definition size_add (a b : Z) : Z := cast size_t (a + b).

Section ObjectRepresentation.
Context {B : Build}.

Definition native (bs : list byte) : list byte :=
  if big_endian then rev bs else bs.

(** The bytes [memcpy] sees at [&value] for [value : T]. *)
Definition to_bytes (T : ctype) (v : Z) : list byte :=
  native (le_split (sizeof T) v).

(** The value of type [T] whose storage holds [bs]. *)
Definition from_bytes (T : ctype) (bs : list byte) : Z :=
  cast T (le_combine (native bs)).

(** [memcpy(&dst, &src, sizeof(dst))] between two scalars of equal size. *)
Definition bit_copy (Tsrc Tdst : ctype) (v : Z) : Z :=
  from_bytes Tdst (to_bytes Tsrc v).

End ObjectRepresentation.

(** ** Outcomes and the state monad of a cursor object *)

(** The exceptions of the standard library that can leave a method. *)
Inductive exception := length_error.

Inductive outcome (S A : Type) : Type :=
| Done (a : A) (s : S)   (* the call returned [a], leaving the object as [s] *)
| Abort (s : S)          (* an assertion failed; [s] is the object at that point *)
| Throws (e : exception) (* the call was left by an exception *)
| Undefined.             (* an access outside the underlying storage *)

Arguments Done {S A} a s.
Arguments Abort {S A} s.
Arguments Throws {S A} e.
Arguments Undefined {S A}.

Definition M (S A : Type) : Type := S -> outcome S A.

Definition ret {S A} (a : A) : M S A := fun s => Done a s.

Definition bind {S A C} (m : M S A) (k : A -> M S C) : M S C :=
  fun s => match m s with
           | Done a s' => k a s'
           | Abort s' => Abort s'
           | Throws e => Throws e
           | Undefined => Undefined
           end.

Notation "x <- m ;; k" := (bind m (fun x => k))
  (at level 61, m at next level, right associativity).
Notation "m ;; k" := (bind m (fun _ => k))
  (at level 61, right associativity).

Definition get {S} : M S S := fun s => Done s s.
Definition put {S} (s : S) : M S unit := fun _ => Done tt s.

(** The outcome of a memory access that may leave the storage. *)
Definition access {S A} (o : option A) : M S A :=
  fun s => match o with Some a => Done a s | None => Undefined end.

(** [assert(c)] *)
Definition assert_ {B : Build} {S} (c : bool) : M S unit :=
  fun s => if NDEBUG then Done tt s
           else if c then Done tt s else Abort s.

(** [throw e] *)
Definition throw {S A} (e : exception) : M S A := fun _ => Throws e.

(** ** Addresses and the standard string *)

(** No object lies in the first page of the address space (the page of the
    null pointer is never mapped), and the objects of a process lie in its
    lower half. *)
Definition first_page : Z := 4096.
Definition address_space_half : Z := 2 ^ 63.

(** [std::string::max_size()].  Its value is left to the implementation;
    none exceeds the largest [ptrdiff_t], which is the bound taken here. *)
Definition string_max_size : Z := max_value int64_t.

(** ** class ExportSerializeInput *)

Module ExportSerializeInput.

Record t := mk {
  mem : Mem.storage;   (* the storage [current_] and [end_] point into *)
  current_ : Z;        (* current read position *)
  end_ : Z             (* end of the buffer *)
}.

Definition set_current (r : t) (p : Z) : t :=
  {| mem := mem r; current_ := p; end_ := end_ r |}.

(** [ExportSerializeInput(const void* data, size_t length)], with [data]
    the offset of the region inside [m]. *)
Definition new (m : Mem.storage) (data length : Z) : t :=
  {| mem := m; current_ := data; end_ := data + length |}.

Section Methods.
Context {B : Build}.

Definition readPrimitive (T : ctype) : M t Z :=
  r <- get ;;
  value <- access (option_map (from_bytes T)
                     (Mem.load (mem r) (current_ r) (Z.of_nat (sizeof T)))) ;;
  put (set_current r (current_ r + Z.of_nat (sizeof T))) ;;
  ret value.

Definition readChar : M t Z := readPrimitive char_t.
Definition readByte : M t Z := readPrimitive int8_t.
Definition readShort : M t Z := readPrimitive int16_t.
Definition readInt : M t Z := readPrimitive int32_t.

Definition readBool : M t bool :=
  v <- readByte ;; ret (negb (v =? 0)).

Definition readEnumInSingleByte : M t Z :=
  v <- readByte ;; ret (cast char_t v).

Definition readLong : M t Z := readPrimitive int64_t.

Definition readFloat : M t Z :=
  value <- readPrimitive int32_t ;;
  ret (bit_copy int32_t float_t value).

Definition readDouble : M t Z :=
  value <- readPrimitive int64_t ;;
  ret (bit_copy int64_t double_t value).

(** Returns the old position, advancing the read position by [length].
    The sum is the exact one: it is the pointer's as long as that does not
    wrap. *)
Definition getRawPointer (length : Z) : M t Z :=
  r <- get ;;
  let result := current_ r in
  put (set_current r (current_ r + length)) ;;
  r' <- get ;;
  assert_ (current_ r' <=? end_ r') ;;
  ret result.

(** [std::string(p, n)]: throws [std::length_error] if [n] is more than a
    string can hold, and otherwise copies the [n] bytes at [p]. *)
Definition std_string (p n : Z) : M t (list byte) :=
  if n >? string_max_size then throw length_error
  else r <- get ;; access (Mem.load (mem r) p n).

Definition readTextString : M t (list byte) :=
  stringLength <- readInt ;;
  assert_ (stringLength >=? 0) ;;
  p <- getRawPointer (cast size_t stringLength) ;;
  std_string p (cast size_t stringLength).

(** The bytes copied to [destination] are returned. *)
Definition readBytes (length : Z) : M t (list byte) :=
  p <- getRawPointer length ;;
  r <- get ;; access (Mem.load (mem r) p length).

(** Moves the read position back by [bytes].  The difference is the exact
    one: it is the pointer's as long as that does not wrap. *)
Definition unread (bytes : Z) : M t unit :=
  r <- get ;; put (set_current r (current_ r - bytes)).

End Methods.

End ExportSerializeInput.

(** ** class ExportSerializeOutput *)

Module ExportSerializeOutput.

Record t := mk {
  buffer_ : Mem.storage;  (* the storage [buffer_] points to *)
  position_ : Z;          (* current write position in the buffer *)
  capacity_ : Z           (* total bytes this buffer can contain *)
}.

Definition set_position_ (w : t) (p : Z) : t :=
  {| buffer_ := buffer_ w; position_ := p; capacity_ := capacity_ w |}.

Definition set_buffer_ (w : t) (b : Mem.storage) : t :=
  {| buffer_ := b; position_ := position_ w; capacity_ := capacity_ w |}.

Section Methods.
Context {B : Build}.

(** [ExportSerializeOutput(void* buffer, size_t capacity)] *)
Definition new (buffer : Mem.storage) (capacity : Z) : outcome t unit :=
  (w <- get ;; put (set_buffer_ w buffer) ;;
   w <- get ;; assert_ (position_ w <=? capacity) ;;
   put {| buffer_ := buffer_ w; position_ := position_ w; capacity_ := capacity |})
    {| buffer_ := []; position_ := 0; capacity_ := 0 |}.

Definition data : M t Mem.storage := w <- get ;; ret (buffer_ w).

Definition size : M t Z := w <- get ;; ret (position_ w).

Definition assureExpand (next_write : Z) : M t unit :=
  w <- get ;;
  let minimum_desired := size_add (position_ w) next_write in
  (if minimum_desired >? capacity_ w
   then ret tt  (* TODO: die *)
   else ret tt) ;;
  assert_ (capacity_ w >=? minimum_desired).

(** [memcpy(buffer_ + off, bs, |bs|)] *)
Definition memcpy_at (off : Z) (bs : list byte) : M t unit :=
  w <- get ;;
  b <- access (Mem.store (buffer_ w) off bs) ;;
  put (set_buffer_ w b).

(** [position_ += n] *)
Definition advance (n : Z) : M t unit :=
  w <- get ;; put (set_position_ w (size_add (position_ w) n)).

Definition writePrimitive (T : ctype) (value : Z) : M t unit :=
  assureExpand (Z.of_nat (sizeof T)) ;;
  w <- get ;;
  memcpy_at (position_ w) (to_bytes T value) ;;
  advance (Z.of_nat (sizeof T)).

Definition writeChar (value : Z) : M t unit := writePrimitive char_t value.
Definition writeByte (value : Z) : M t unit := writePrimitive int8_t value.

Definition writeShort (value : Z) : M t unit :=
  writePrimitive uint16_t (cast uint16_t value).

Definition writeInt (value : Z) : M t unit := writePrimitive int32_t value.

Definition writeBool (value : bool) : M t unit :=
  writeByte (if value then 1 else 0).

Definition writeLong (value : Z) : M t unit := writePrimitive int64_t value.

Definition writeFloat (value : Z) : M t unit :=
  let data := bit_copy float_t int32_t value in
  writePrimitive int32_t data.

Definition writeDouble (value : Z) : M t unit :=
  let data := bit_copy double_t int64_t value in
  writePrimitive int64_t data.

Definition writeEnumInSingleByte (value : Z) : M t unit :=
  assert_ ((min_value int8_t <=? value) && (value <=? max_value int8_t)) ;;
  writeByte (cast int8_t value).

(** [value] is the storage the source pointer addresses. *)
Definition writeBinaryString (value : list byte) (length : Z) : M t unit :=
  let stringLength := cast int32_t length in
  assureExpand (size_add length 4) ;;
  w <- get ;;
  let current := position_ w in
  memcpy_at current (to_bytes int32_t stringLength) ;;
  let current := current + 4 in
  src <- access (Mem.load value 0 length) ;;
  memcpy_at current src ;;
  advance (size_add 4 length).

Definition writeBytes (value : list byte) (length : Z) : M t unit :=
  assureExpand length ;;
  w <- get ;;
  src <- access (Mem.load value 0 length) ;;
  memcpy_at (position_ w) src ;;
  advance length.

Definition writeZeros (length : Z) : M t unit :=
  assureExpand length ;;
  w <- get ;;
  memcpy_at (position_ w) (repeat Byte.x00 (Z.to_nat length)) ;;
  advance length.

(** Reserves [length] bytes of space for writing; returns the offset. *)
Definition reserveBytes (length : Z) : M t Z :=
  assureExpand length ;;
  w <- get ;;
  let offset := position_ w in
  advance length ;;
  ret offset.

(** The private template [writePrimitiveAt] is never instantiated (it calls
    a [writeBytesAt] that the class does not declare) and is left out. *)

(** [std::size_t position()] *)
Definition position : M t Z := w <- get ;; ret (position_ w).

(** [void position(std::size_t pos)] *)
Definition position_set (pos : Z) : M t unit :=
  w <- get ;; put (set_position_ w pos).

End Methods.

End ExportSerializeOutput.

(** The specification calls the two classes Reader and Writer. *)
Module Reader := ExportSerializeInput.
Module Writer := ExportSerializeOutput.

(** ** The operations of each class, as data

    Several properties quantify over "every Writer operation" or "every
    Reader operation"; the two enumerations below list the public methods
    and dispatch to them. *)

Inductive write_op :=
| WriteChar (value : Z)
| WriteByte (value : Z)
| WriteShort (value : Z)
| WriteInt (value : Z)
| WriteBool (value : bool)
| WriteLong (value : Z)
| WriteFloat (value : Z)
| WriteDouble (value : Z)
| WriteEnumInSingleByte (value : Z)
| WriteBinaryString (value : list byte) (length : Z)
| WriteBytes (value : list byte) (length : Z)
| WriteZeros (length : Z)
| ReserveBytes (length : Z).

Definition run_write {B : Build} (op : write_op) : M Writer.t unit :=
  match op with
  | WriteChar v => Writer.writeChar v
  | WriteByte v => Writer.writeByte v
  | WriteShort v => Writer.writeShort v
  | WriteInt v => Writer.writeInt v
  | WriteBool b => Writer.writeBool b
  | WriteLong v => Writer.writeLong v
  | WriteFloat v => Writer.writeFloat v
  | WriteDouble v => Writer.writeDouble v
  | WriteEnumInSingleByte v => Writer.writeEnumInSingleByte v
  | WriteBinaryString value n => Writer.writeBinaryString value n
  | WriteBytes value n => Writer.writeBytes value n
  | WriteZeros n => Writer.writeZeros n
  | ReserveBytes n => Writer.reserveBytes n ;; ret tt
  end.

(** The number of bytes an operation asks [assureExpand] for. *)
Definition requested (op : write_op) : Z :=
  match op with
  | WriteChar _ | WriteByte _ | WriteBool _ | WriteEnumInSingleByte _ => 1
  | WriteShort _ => 2
  | WriteInt _ | WriteFloat _ => 4
  | WriteLong _ | WriteDouble _ => 8
  | WriteBinaryString _ n => n + 4
  | WriteBytes _ n | WriteZeros n | ReserveBytes n => n
  end.

(** The number of bytes an operation stores at the cursor. *)
Definition written (op : write_op) : Z :=
  match op with
  | ReserveBytes _ => 0
  | _ => requested op
  end.

(** The caller's side of a call: a length is a non-negative [size_t], a
    source pointer addresses at least [length] bytes, and an enum tag meets
    the range the method asserts. *)
Definition call_ok (op : write_op) : Prop :=
  match op with
  | WriteEnumInSingleByte v => in_range int8_t v
  | WriteBinaryString value n | WriteBytes value n => 0 <= n <= Mem.size value
  | WriteZeros n | ReserveBytes n => 0 <= n
  | _ => True
  end.

Inductive read_op :=
| ReadChar | ReadByte | ReadShort | ReadInt | ReadBool | ReadEnumInSingleByte
| ReadLong | ReadFloat | ReadDouble
| GetRawPointer (length : Z)
| ReadTextString
| ReadBytes (length : Z)
| Unread (bytes : Z).

Inductive read_result :=
| RInt (v : Z) | RBool (b : bool) | RBytes (bs : list byte) | RPtr (p : Z) | RVoid.

Definition fmap {S A C} (f : A -> C) (m : M S A) : M S C :=
  a <- m ;; ret (f a).

Definition run_read {B : Build} (op : read_op) : M Reader.t read_result :=
  match op with
  | ReadChar => fmap RInt Reader.readChar
  | ReadByte => fmap RInt Reader.readByte
  | ReadShort => fmap RInt Reader.readShort
  | ReadInt => fmap RInt Reader.readInt
  | ReadBool => fmap RBool Reader.readBool
  | ReadEnumInSingleByte => fmap RInt Reader.readEnumInSingleByte
  | ReadLong => fmap RInt Reader.readLong
  | ReadFloat => fmap RInt Reader.readFloat
  | ReadDouble => fmap RInt Reader.readDouble
  | GetRawPointer n => fmap RPtr (Reader.getRawPointer n)
  | ReadTextString => fmap RBytes Reader.readTextString
  | ReadBytes n => fmap RBytes (Reader.readBytes n)
  | Unread n => fmap (fun _ => RVoid) (Reader.unread n)
  end.

(** The fixed-width reads and their widths. *)
Definition fixed_width (op : read_op) : option Z :=
  match op with
  | ReadChar | ReadByte | ReadBool | ReadEnumInSingleByte => Some 1
  | ReadShort => Some 2
  | ReadInt | ReadFloat => Some 4
  | ReadLong | ReadDouble => Some 8
  | _ => None
  end.

(** The pointer at offset [p] points into the storage of [r], or just
    past its last byte. *)
Definition in_storage (r : Reader.t) (p : Z) : Prop :=
  0 <= p <= Mem.size (Reader.mem r).

(** The object a call leaves behind, when it leaves one. *)
Definition final {S A} (o : outcome S A) : option S :=
  match o with
  | Done _ s | Abort s => Some s
  | Throws _ | Undefined => None
  end.

(** A Writer whose fields are [size_t] values and whose storage really
    holds [capacity_] bytes, as the constructor's caller promises. *)
Record writer_ok (w : Writer.t) : Prop := {
  position_size_t : in_range size_t (Writer.position_ w);
  capacity_size_t : in_range size_t (Writer.capacity_ w);
  capacity_backed : Writer.capacity_ w <= Mem.size (Writer.buffer_ w)
}.

(** The back-patch scenario: reserve a 4-byte slot, write 4 further bytes,
    go back to the slot, fill it in, and restore the position.  The result
    collects the offset returned by [reserveBytes], the position after the
    reservation, the position after the downstream write, and [size()]. *)
Definition back_patch {B : Build} (downstream : list byte) (computed : Z)
  : M Writer.t (Z * Z * Z * Z) :=
  offset <- Writer.reserveBytes 4 ;;
  p1 <- Writer.position ;;
  Writer.writeBytes downstream 4 ;;
  p2 <- Writer.position ;;
  Writer.position_set 0 ;;
  Writer.writeInt computed ;;
  Writer.position_set 8 ;;
  n <- Writer.size ;;
  ret (offset, p1, p2, n).

(** Writing with [write] at the cursor of [w] and then decoding with [read]
    from the same offset of the written buffer yields [v]; both cursors
    move by [width]. *)
Definition round_trips {A} (write : M Writer.t unit) (read : M Reader.t A)
           (width : Z) (v : A) (w : Writer.t) : Prop :=
  exists w',
    write w = Done tt w' /\
    Writer.position_ w' = Writer.position_ w + width /\
    forall r,
      Reader.mem r = Writer.buffer_ w' ->
      Reader.current_ r = Writer.position_ w ->
      read r = Done v (Reader.set_current r (Reader.current_ r + width)).

(** The remaining capacity of [w] holds [n] more bytes. *)
Definition fits (w : Writer.t) (n : Z) : Prop :=
  Writer.position_ w + n <= Writer.capacity_ w.

(** A Reader computation leaves the bytes of the underlying storage as
    they were, whether it returns or stops at an assertion. *)
Definition keeps_storage {A} (m : M Reader.t A) : Prop :=
  forall r s, final (m r) = Some s -> Reader.mem s = Reader.mem r.

(** Two storages agree everywhere outside the [n] bytes at [off]. *)
Definition same_outside (m m' : Mem.storage) (off n : Z) : Prop :=
  Mem.size m' = Mem.size m /\
  forall i, i < off \/ off + n <= i -> Mem.byte_at m' i = Mem.byte_at m i.

(** The reads that advance through [getRawPointer], and so pass its
    assertion [current_ <= end_]. *)
Definition checked (op : read_op) : bool :=
  match op with
  | GetRawPointer _ | ReadTextString | ReadBytes _ => true
  | _ => false
  end.

(** ** Sequences of operations and the wire image of a write *)

Fixpoint run_writes {B : Build} (ops : list write_op) : M Writer.t unit :=
  match ops with
  | [] => ret tt
  | op :: rest => run_write op ;; run_writes rest
  end.

Fixpoint run_reads {B : Build} (ops : list read_op) : M Reader.t (list read_result) :=
  match ops with
  | [] => ret []
  | op :: rest => v <- run_read op ;; vs <- run_reads rest ;; ret (v :: vs)
  end.

(** The bytes a write is expected to put on the wire: the object
    representation of the value at its declared type, and for a
    length-prefixed string the 32-bit length followed by the payload.
    [reserveBytes] puts nothing there. *)
Definition encoding {B : Build} (op : write_op) : list byte :=
  match op with
  | WriteChar v => to_bytes char_t v
  | WriteByte v => to_bytes int8_t v
  | WriteShort v => to_bytes int16_t v
  | WriteInt v => to_bytes int32_t v
  | WriteBool b => [if b then Byte.x01 else Byte.x00]
  | WriteLong v => to_bytes int64_t v
  | WriteFloat v => to_bytes float_t v
  | WriteDouble v => to_bytes double_t v
  | WriteEnumInSingleByte v => to_bytes int8_t v
  | WriteBinaryString value n => to_bytes int32_t n ++ Mem.slice value 0 n
  | WriteBytes value n => Mem.slice value 0 n
  | WriteZeros n => repeat Byte.x00 (Z.to_nat n)
  | ReserveBytes _ => []
  end.

(** The read that takes back what a write has put on the wire. *)
Definition decoder (op : write_op) : read_op :=
  match op with
  | WriteChar _ => ReadChar
  | WriteByte _ => ReadByte
  | WriteShort _ => ReadShort
  | WriteInt _ => ReadInt
  | WriteBool _ => ReadBool
  | WriteLong _ => ReadLong
  | WriteFloat _ => ReadFloat
  | WriteDouble _ => ReadDouble
  | WriteEnumInSingleByte _ => ReadEnumInSingleByte
  | WriteBinaryString _ _ => ReadTextString
  | WriteBytes _ n | WriteZeros n | ReserveBytes n => ReadBytes n
  end.

(** What that read is expected to return. *)
Definition decoded (op : write_op) : read_result :=
  match op with
  | WriteChar v | WriteByte v | WriteShort v | WriteInt v | WriteLong v
  | WriteFloat v | WriteDouble v | WriteEnumInSingleByte v => RInt v
  | WriteBool b => RBool b
  | WriteBinaryString value n | WriteBytes value n => RBytes (Mem.slice value 0 n)
  | WriteZeros n => RBytes (repeat Byte.x00 (Z.to_nat n))
  | ReserveBytes _ => RVoid
  end.

(** A write whose argument is a value of its declared type (a length that
    the source pointer covers, and that the 32-bit prefix can hold), and
    that stores what it is given. *)
Definition value_ok (op : write_op) : Prop :=
  match op with
  | WriteChar v => in_range char_t v
  | WriteByte v | WriteEnumInSingleByte v => in_range int8_t v
  | WriteShort v => in_range int16_t v
  | WriteInt v => in_range int32_t v
  | WriteBool _ => True
  | WriteLong v => in_range int64_t v
  | WriteFloat v => in_range float_t v
  | WriteDouble v => in_range double_t v
  | WriteBinaryString value n => 0 <= n <= Mem.size value /\ n <= max_value int32_t
  | WriteBytes value n => 0 <= n <= Mem.size value
  | WriteZeros n => 0 <= n
  | ReserveBytes _ => False
  end.

Definition total_requested (ops : list write_op) : Z :=
  fold_right (fun op acc => requested op + acc) 0 ops.

(** A length-prefixed string written by back-patching: reserve the slot of
    the prefix, write the payload, go back, write the number of payload
    bytes that were written, and restore the position. *)
Definition length_prefixed_by_back_patch {B : Build}
           (payload : list byte) (n : Z) : M Writer.t unit :=
  offset <- Writer.reserveBytes 4 ;;
  Writer.writeBytes payload n ;;
  finish <- Writer.position ;;
  Writer.position_set offset ;;
  Writer.writeInt (cast int32_t (finish - offset - 4)) ;;
  Writer.position_set finish.

(** * Properties *)

(** ** Lists as memory *)

Lemma nth_error_splice_nat (m bs : list byte) (off i : nat) :
  (off + length bs <= length m)%nat ->
  nth_error (firstn off m ++ bs ++ skipn (off + length bs) m) i =
  if (i <? off)%nat then nth_error m i
  else if (i <? off + length bs)%nat then nth_error bs (i - off)
       else nth_error m i.
Proof.
  intros Hb.
  assert (Hl : length (firstn off m) = off) by (apply firstn_length_le; lia).
  destruct (Nat.ltb_spec i off) as [H1 | H1].
  - rewrite nth_error_app1 by lia.
    rewrite nth_error_firstn.
    destruct (Nat.ltb_spec i off); [reflexivity | lia].
  - rewrite nth_error_app2 by lia. rewrite Hl.
    destruct (Nat.ltb_spec i (off + length bs)) as [H2 | H2].
    + apply nth_error_app1. lia.
    + rewrite nth_error_app2 by lia.
      rewrite nth_error_skipn. f_equal. lia.
Qed.

Lemma in_bounds_spec (m : Mem.storage) (off n : Z) :
  Mem.in_bounds m off n = true <-> 0 <= off /\ 0 <= n /\ off + n <= Mem.size m.
Proof.
  unfold Mem.in_bounds. rewrite !andb_true_iff, !Z.leb_le. tauto.
Qed.

Lemma load_Some (m : Mem.storage) (off n : Z) (bs : list byte) :
  Mem.load m off n = Some bs <->
  (0 <= off /\ 0 <= n /\ off + n <= Mem.size m) /\ bs = Mem.slice m off n.
Proof.
  unfold Mem.load.
  destruct (Mem.in_bounds m off n) eqn:E.
  - apply in_bounds_spec in E. split.
    + intros [= <-]. auto.
    + intros [_ ->]. reflexivity.
  - split; [discriminate |].
    intros [Hb _]. apply in_bounds_spec in Hb. congruence.
Qed.

Lemma store_Some (m : Mem.storage) (off : Z) (bs : list byte) (m' : Mem.storage) :
  Mem.store m off bs = Some m' <->
  (0 <= off /\ off + Z.of_nat (length bs) <= Mem.size m) /\ m' = Mem.splice m off bs.
Proof.
  unfold Mem.store.
  destruct (Mem.in_bounds m off (Z.of_nat (length bs))) eqn:E.
  - apply in_bounds_spec in E. split.
    + intros [= <-]. split; [lia | reflexivity].
    + intros [_ ->]. reflexivity.
  - split; [discriminate |].
    intros [Hb _].
    assert (Mem.in_bounds m off (Z.of_nat (length bs)) = true)
      by (apply in_bounds_spec; lia).
    congruence.
Qed.

Lemma slice_length (m : Mem.storage) (off n : Z) :
  0 <= off -> 0 <= n -> off + n <= Mem.size m ->
  length (Mem.slice m off n) = Z.to_nat n.
Proof.
  unfold Mem.slice, Mem.size. intros.
  rewrite length_firstn, length_skipn. lia.
Qed.

Lemma nth_error_slice (m : Mem.storage) (off n : Z) (i : nat) :
  nth_error (Mem.slice m off n) i =
  if (i <? Z.to_nat n)%nat then nth_error m (Z.to_nat off + i) else None.
Proof.
  unfold Mem.slice. rewrite nth_error_firstn, nth_error_skipn. reflexivity.
Qed.

Lemma nth_error_splice (m : Mem.storage) (off : Z) (bs : list byte) (i : nat) :
  0 <= off -> off + Z.of_nat (length bs) <= Mem.size m ->
  nth_error (Mem.splice m off bs) i =
  if (i <? Z.to_nat off)%nat then nth_error m i
  else if (i <? Z.to_nat off + length bs)%nat then nth_error bs (i - Z.to_nat off)
       else nth_error m i.
Proof.
  unfold Mem.splice, Mem.size. intros.
  apply nth_error_splice_nat. lia.
Qed.

Lemma splice_length (m : Mem.storage) (off : Z) (bs : list byte) :
  0 <= off -> off + Z.of_nat (length bs) <= Mem.size m ->
  length (Mem.splice m off bs) = length m.
Proof.
  unfold Mem.splice, Mem.size. intros.
  rewrite !length_app, length_firstn, length_skipn. lia.
Qed.

Lemma store_length (m : Mem.storage) (off : Z) (bs : list byte) (m' : Mem.storage) :
  Mem.store m off bs = Some m' -> Mem.size m' = Mem.size m.
Proof.
  intros H. apply store_Some in H. destruct H as [[? ?] ->].
  unfold Mem.size. rewrite splice_length by assumption. reflexivity.
Qed.

(** What was stored is what a load at the same place returns. *)
Lemma load_store_same (m : Mem.storage) (off : Z) (bs : list byte) (m' : Mem.storage) :
  Mem.store m off bs = Some m' ->
  Mem.load m' off (Z.of_nat (length bs)) = Some bs.
Proof.
  intros H. pose proof (store_length _ _ _ _ H) as Hs.
  apply store_Some in H. destruct H as [[H0 H1] ->].
  apply load_Some. split; [lia |].
  apply nth_error_ext. intros i.
  rewrite nth_error_slice, Nat2Z.id.
  destruct (Nat.ltb_spec i (length bs)) as [Hi | Hi].
  - rewrite nth_error_splice by assumption.
    destruct (Nat.ltb_spec (Z.to_nat off + i) (Z.to_nat off)); [lia |].
    destruct (Nat.ltb_spec (Z.to_nat off + i) (Z.to_nat off + length bs)); [| lia].
    f_equal. lia.
  - apply nth_error_None. exact Hi.
Qed.

(** A store leaves every load from a disjoint range as it was. *)
Lemma load_store_disjoint (m : Mem.storage) (off : Z) (bs : list byte)
      (m' : Mem.storage) (o n : Z) :
  Mem.store m off bs = Some m' ->
  o + n <= off \/ off + Z.of_nat (length bs) <= o ->
  Mem.load m' o n = Mem.load m o n.
Proof.
  intros H Hd. pose proof (store_length _ _ _ _ H) as Hs.
  apply store_Some in H. destruct H as [[H0 H1] ->].
  unfold Mem.load, Mem.in_bounds. rewrite Hs.
  destruct ((0 <=? o) && (0 <=? n) && (o + n <=? Mem.size m)) eqn:E; [| reflexivity].
  rewrite !andb_true_iff, !Z.leb_le in E. destruct E as [[E1 E2] E3].
  f_equal. apply nth_error_ext. intros i.
  rewrite !nth_error_slice.
  destruct (Nat.ltb_spec i (Z.to_nat n)) as [Hi | Hi]; [| reflexivity].
  rewrite nth_error_splice by assumption.
  destruct (Nat.ltb_spec (Z.to_nat o + i) (Z.to_nat off)); [reflexivity |].
  destruct (Nat.ltb_spec (Z.to_nat o + i) (Z.to_nat off + length bs)); [lia | reflexivity].
Qed.

(** A store leaves every byte outside the stored range as it was. *)
Lemma byte_at_store_other (m : Mem.storage) (off : Z) (bs : list byte)
      (m' : Mem.storage) (i : Z) :
  Mem.store m off bs = Some m' ->
  i < off \/ off + Z.of_nat (length bs) <= i ->
  Mem.byte_at m' i = Mem.byte_at m i.
Proof.
  intros H Hd. apply store_Some in H. destruct H as [[H0 H1] ->].
  unfold Mem.byte_at. destruct (Z.leb_spec 0 i) as [Hi | Hi]; [| reflexivity].
  rewrite nth_error_splice by assumption.
  destruct (Nat.ltb_spec (Z.to_nat i) (Z.to_nat off)); [reflexivity |].
  destruct (Nat.ltb_spec (Z.to_nat i) (Z.to_nat off + length bs)); [lia | reflexivity].
Qed.

(** ** Scalar conversions and object representations *)

Lemma bits_pos (T : ctype) : 0 < bits T.
Proof. destruct T; reflexivity. Qed.

Lemma pow2_half (n : Z) : 0 < n -> 2 ^ n = 2 * 2 ^ (n - 1).
Proof.
  intros H. replace n with (Z.succ (n - 1)) at 1 by lia.
  apply Z.pow_succ_r. lia.
Qed.

Lemma pow2_pos (n : Z) : 0 <= n -> 0 < 2 ^ n.
Proof. intros. apply Z.pow_pos_nonneg; lia. Qed.

(** A conversion changes its operand by a multiple of 2^bits. *)
Lemma cast_congruent (T : ctype) (v : Z) :
  exists k, cast T v = v + k * 2 ^ bits T.
Proof.
  pose proof (bits_pos T) as Hb.
  pose proof (pow2_pos (bits T) ltac:(lia)) as Hp.
  unfold cast, swrap. destruct (is_signed T).
  - exists (- ((v + 2 ^ (bits T - 1)) / 2 ^ bits T)).
    pose proof (Z.div_mod (v + 2 ^ (bits T - 1)) (2 ^ bits T) ltac:(lia)). lia.
  - exists (- (v / 2 ^ bits T)).
    pose proof (Z.div_mod v (2 ^ bits T) ltac:(lia)). lia.
Qed.

Lemma cast_add_multiple (T : ctype) (v k : Z) :
  cast T (v + k * 2 ^ bits T) = cast T v.
Proof.
  unfold cast, swrap. destruct (is_signed T).
  - replace (v + k * 2 ^ bits T + 2 ^ (bits T - 1))
      with (v + 2 ^ (bits T - 1) + k * 2 ^ bits T) by lia.
    rewrite Z_mod_plus_full. reflexivity.
  - apply Z_mod_plus_full.
Qed.

Lemma cast_id (T : ctype) (v : Z) : in_range T v -> cast T v = v.
Proof.
  pose proof (bits_pos T) as Hb.
  pose proof (pow2_half (bits T) Hb) as Hh.
  pose proof (pow2_pos (bits T - 1) ltac:(lia)) as Hp.
  unfold in_range, min_value, max_value, cast, swrap.
  destruct (is_signed T); intros H.
  - rewrite Z.mod_small; lia.
  - apply Z.mod_small. lia.
Qed.

Lemma cast_in_range (T : ctype) (v : Z) : in_range T (cast T v).
Proof.
  pose proof (bits_pos T) as Hb.
  pose proof (pow2_half (bits T) Hb) as Hh.
  pose proof (pow2_pos (bits T - 1) ltac:(lia)) as Hp.
  unfold in_range, min_value, max_value, cast, swrap.
  destruct (is_signed T).
  - pose proof (Z.mod_pos_bound (v + 2 ^ (bits T - 1)) (2 ^ bits T) ltac:(lia)). lia.
  - pose proof (Z.mod_pos_bound v (2 ^ bits T) ltac:(lia)). lia.
Qed.

(** Converting through a type of the same width loses nothing. *)
Lemma cast_cast (T T' : ctype) (v : Z) :
  bits T = bits T' -> cast T (cast T' v) = cast T v.
Proof.
  intros Hb. destruct (cast_congruent T' v) as [k ->].
  rewrite <- Hb. apply cast_add_multiple.
Qed.

Lemma in_rangeb_spec (T : ctype) (v : Z) : in_rangeb T v = true <-> in_range T v.
Proof.
  unfold in_rangeb, in_range. rewrite andb_true_iff, !Z.leb_le. tauto.
Qed.

Lemma size_add_nowrap (a b : Z) :
  0 <= a + b < 2 ^ 64 -> size_add a b = a + b.
Proof.
  intros H. unfold size_add. apply cast_id.
  unfold in_range, min_value, max_value. simpl is_signed. cbv iota.
  change (bits size_t) with 64. lia.
Qed.

Section Representation.
Context {B : Build}.

Lemma native_involutive (bs : list byte) : native (native bs) = bs.
Proof. unfold native. destruct big_endian; [apply rev_involutive | reflexivity]. Qed.

Lemma length_native (bs : list byte) : length (native bs) = length bs.
Proof. unfold native. destruct big_endian; [apply length_rev | reflexivity]. Qed.

Lemma length_to_bytes (T : ctype) (v : Z) : length (to_bytes T v) = sizeof T.
Proof. unfold to_bytes. rewrite length_native. apply length_le_split. Qed.

(** Storing a value of one type and reading the bytes back at a type of
    the same size is the conversion between the two. *)
Lemma from_to_bytes_cast (T T' : ctype) (v : Z) :
  sizeof T = sizeof T' -> from_bytes T (to_bytes T' v) = cast T v.
Proof.
  intros Hs. unfold from_bytes, to_bytes.
  rewrite native_involutive, le_combine_split.
  pose proof (bits_pos T) as Hb.
  pose proof (pow2_pos (bits T) ltac:(lia)) as Hp.
  replace (Z.of_nat (sizeof T') * 8) with (bits T) by (unfold bits; lia).
  rewrite (Z.div_mod v (2 ^ bits T)) at 2 by lia.
  rewrite (Z.mul_comm (2 ^ bits T)), Z.add_comm.
  symmetry. apply cast_add_multiple.
Qed.

Lemma from_to_bytes (T : ctype) (v : Z) :
  in_range T v -> from_bytes T (to_bytes T v) = v.
Proof.
  intros H. rewrite from_to_bytes_cast by reflexivity. apply cast_id, H.
Qed.

Lemma bit_copy_cast (T T' : ctype) (v : Z) :
  sizeof T = sizeof T' -> bit_copy T T' v = cast T' v.
Proof. intros H. apply from_to_bytes_cast. congruence. Qed.

(** [memcpy] to a scalar of the same size and back restores the value. *)
Lemma bit_copy_round_trip (T T' : ctype) (v : Z) :
  sizeof T = sizeof T' -> in_range T v ->
  bit_copy T' T (bit_copy T T' v) = v.
Proof.
  intros Hs Hr. rewrite !bit_copy_cast by congruence.
  rewrite cast_cast by (unfold bits; congruence).
  apply cast_id, Hr.
Qed.

End Representation.

(** ** How the methods run *)

Ltac run_monad :=
  unfold bind, get, put, ret, access, assert_, fmap.

Section WriterRuns.
Context {B : Build}.

Lemma assureExpand_run (n : Z) (w : Writer.t) :
  Writer.assureExpand n w =
  if NDEBUG || (Writer.capacity_ w >=? size_add (Writer.position_ w) n)
  then Done tt w else Abort w.
Proof.
  unfold Writer.assureExpand. run_monad.
  destruct (size_add (Writer.position_ w) n >? Writer.capacity_ w);
    destruct NDEBUG; simpl;
    destruct (Writer.capacity_ w >=? size_add (Writer.position_ w) n);
    reflexivity.
Qed.

(** The shape shared by [writePrimitive] and [writeZeros]: check, copy
    at the cursor, advance. *)
Lemma guarded_store_run (n : Z) (bs : list byte) (w : Writer.t) :
  (Writer.assureExpand n ;;
   w0 <- get ;;
   Writer.memcpy_at (Writer.position_ w0) bs ;;
   Writer.advance n) w =
  if NDEBUG || (Writer.capacity_ w >=? size_add (Writer.position_ w) n)
  then match Mem.store (Writer.buffer_ w) (Writer.position_ w) bs with
       | Some b => Done tt (Writer.mk b (size_add (Writer.position_ w) n)
                                        (Writer.capacity_ w))
       | None => Undefined
       end
  else Abort w.
Proof.
  unfold bind at 1. rewrite assureExpand_run.
  destruct (NDEBUG || (Writer.capacity_ w >=? size_add (Writer.position_ w) n));
    [| reflexivity].
  unfold Writer.memcpy_at, Writer.advance. run_monad.
  destruct (Mem.store (Writer.buffer_ w) (Writer.position_ w) bs); reflexivity.
Qed.

Lemma writePrimitive_run (T : ctype) (v : Z) (w : Writer.t) :
  Writer.writePrimitive T v w =
  if NDEBUG || (Writer.capacity_ w >=?
                size_add (Writer.position_ w) (Z.of_nat (sizeof T)))
  then match Mem.store (Writer.buffer_ w) (Writer.position_ w) (to_bytes T v) with
       | Some b => Done tt (Writer.mk b
                              (size_add (Writer.position_ w) (Z.of_nat (sizeof T)))
                              (Writer.capacity_ w))
       | None => Undefined
       end
  else Abort w.
Proof. apply guarded_store_run. Qed.

Lemma writeZeros_run (n : Z) (w : Writer.t) :
  Writer.writeZeros n w =
  if NDEBUG || (Writer.capacity_ w >=? size_add (Writer.position_ w) n)
  then match Mem.store (Writer.buffer_ w) (Writer.position_ w)
               (repeat Byte.x00 (Z.to_nat n)) with
       | Some b => Done tt (Writer.mk b (size_add (Writer.position_ w) n)
                                        (Writer.capacity_ w))
       | None => Undefined
       end
  else Abort w.
Proof. apply guarded_store_run. Qed.

Lemma writeBytes_run (value : list byte) (n : Z) (w : Writer.t) :
  Writer.writeBytes value n w =
  if NDEBUG || (Writer.capacity_ w >=? size_add (Writer.position_ w) n)
  then match Mem.load value 0 n with
       | Some src =>
           match Mem.store (Writer.buffer_ w) (Writer.position_ w) src with
           | Some b => Done tt (Writer.mk b (size_add (Writer.position_ w) n)
                                            (Writer.capacity_ w))
           | None => Undefined
           end
       | None => Undefined
       end
  else Abort w.
Proof.
  unfold Writer.writeBytes. unfold bind at 1. rewrite assureExpand_run.
  destruct (NDEBUG || (Writer.capacity_ w >=? size_add (Writer.position_ w) n));
    [| reflexivity].
  unfold Writer.memcpy_at, Writer.advance. run_monad.
  destruct (Mem.load value 0 n); [| reflexivity].
  destruct (Mem.store (Writer.buffer_ w) (Writer.position_ w) l); reflexivity.
Qed.

Lemma writeBinaryString_run (value : list byte) (n : Z) (w : Writer.t) :
  Writer.writeBinaryString value n w =
  if NDEBUG || (Writer.capacity_ w >=?
                size_add (Writer.position_ w) (size_add n 4))
  then match Mem.store (Writer.buffer_ w) (Writer.position_ w)
               (to_bytes int32_t (cast int32_t n)) with
       | Some b1 =>
           match Mem.load value 0 n with
           | Some src =>
               match Mem.store b1 (Writer.position_ w + 4) src with
               | Some b2 =>
                   Done tt (Writer.mk b2
                              (size_add (Writer.position_ w) (size_add 4 n))
                              (Writer.capacity_ w))
               | None => Undefined
               end
           | None => Undefined
           end
       | None => Undefined
       end
  else Abort w.
Proof.
  unfold Writer.writeBinaryString. unfold bind at 1. rewrite assureExpand_run.
  destruct (NDEBUG || (Writer.capacity_ w >=?
                       size_add (Writer.position_ w) (size_add n 4)));
    [| reflexivity].
  unfold Writer.memcpy_at, Writer.advance. run_monad.
  destruct (Mem.store (Writer.buffer_ w) (Writer.position_ w)
              (to_bytes int32_t (cast int32_t n))); [| reflexivity].
  destruct (Mem.load value 0 n); [| reflexivity].
  cbn [Writer.buffer_ Writer.position_ Writer.set_buffer_].
  destruct (Mem.store s (Writer.position_ w + 4) l); reflexivity.
Qed.

Lemma reserveBytes_run (n : Z) (w : Writer.t) :
  Writer.reserveBytes n w =
  if NDEBUG || (Writer.capacity_ w >=? size_add (Writer.position_ w) n)
  then Done (Writer.position_ w)
            (Writer.mk (Writer.buffer_ w) (size_add (Writer.position_ w) n)
                       (Writer.capacity_ w))
  else Abort w.
Proof.
  unfold Writer.reserveBytes. unfold bind at 1. rewrite assureExpand_run.
  destruct (NDEBUG || (Writer.capacity_ w >=? size_add (Writer.position_ w) n));
    reflexivity.
Qed.

Lemma writeEnumInSingleByte_run (v : Z) (w : Writer.t) :
  Writer.writeEnumInSingleByte v w =
  if NDEBUG || in_rangeb int8_t v
  then Writer.writePrimitive int8_t (cast int8_t v) w
  else Abort w.
Proof.
  unfold Writer.writeEnumInSingleByte, Writer.writeByte, in_rangeb. run_monad.
  destruct NDEBUG; simpl; [reflexivity |].
  destruct ((min_value int8_t <=? v) && (v <=? max_value int8_t)); reflexivity.
Qed.

(** The check of [assureExpand] passes when the request fits. *)
Lemma guard_fits (n : Z) (w : Writer.t) :
  0 <= Writer.position_ w -> 0 <= n ->
  Writer.position_ w + n <= Writer.capacity_ w ->
  Writer.capacity_ w < 2 ^ 64 ->
  NDEBUG || (Writer.capacity_ w >=? size_add (Writer.position_ w) n) = true.
Proof.
  intros. rewrite size_add_nowrap by lia.
  apply orb_true_iff. right. apply Z.geb_le. lia.
Qed.

(** With assertions on, it fails when the request does not fit. *)
Lemma guard_overrun (n : Z) (w : Writer.t) :
  NDEBUG = false ->
  0 <= Writer.position_ w -> 0 <= n ->
  Writer.position_ w + n < 2 ^ 64 ->
  Writer.capacity_ w < Writer.position_ w + n ->
  NDEBUG || (Writer.capacity_ w >=? size_add (Writer.position_ w) n) = false.
Proof.
  intros ->. intros. rewrite size_add_nowrap by lia.
  simpl. rewrite Z.geb_leb. apply Z.leb_gt. lia.
Qed.

End WriterRuns.

Section ReaderRuns.
Context {B : Build}.

Lemma readPrimitive_run (T : ctype) (r : Reader.t) :
  Reader.readPrimitive T r =
  match Mem.load (Reader.mem r) (Reader.current_ r) (Z.of_nat (sizeof T)) with
  | Some bs => Done (from_bytes T bs)
                    (Reader.set_current r (Reader.current_ r + Z.of_nat (sizeof T)))
  | None => Undefined
  end.
Proof.
  unfold Reader.readPrimitive. run_monad.
  destruct (Mem.load (Reader.mem r) (Reader.current_ r) (Z.of_nat (sizeof T)));
    reflexivity.
Qed.

Lemma getRawPointer_run (n : Z) (r : Reader.t) :
  Reader.getRawPointer n r =
  if NDEBUG || (Reader.current_ r + n <=? Reader.end_ r)
  then Done (Reader.current_ r) (Reader.set_current r (Reader.current_ r + n))
  else Abort (Reader.set_current r (Reader.current_ r + n)).
Proof.
  unfold Reader.getRawPointer. run_monad.
  cbn [Reader.current_ Reader.end_ Reader.set_current].
  destruct NDEBUG; simpl; [reflexivity |].
  destruct (Reader.current_ r + n <=? Reader.end_ r); reflexivity.
Qed.

Lemma readBytes_run (n : Z) (r : Reader.t) :
  Reader.readBytes n r =
  if NDEBUG || (Reader.current_ r + n <=? Reader.end_ r)
  then match Mem.load (Reader.mem r) (Reader.current_ r) n with
       | Some bs => Done bs (Reader.set_current r (Reader.current_ r + n))
       | None => Undefined
       end
  else Abort (Reader.set_current r (Reader.current_ r + n)).
Proof.
  unfold Reader.readBytes. unfold bind at 1. rewrite getRawPointer_run.
  destruct (NDEBUG || (Reader.current_ r + n <=? Reader.end_ r)); [| reflexivity].
  run_monad. cbn [Reader.mem Reader.set_current].
  destruct (Mem.load (Reader.mem r) (Reader.current_ r) n); reflexivity.
Qed.

Lemma readTextString_run (r : Reader.t) :
  Reader.readTextString r =
  match Mem.load (Reader.mem r) (Reader.current_ r) 4 with
  | None => Undefined
  | Some bs =>
      let stringLength := from_bytes int32_t bs in
      let p := Reader.current_ r + 4 in
      let n := cast size_t stringLength in
      if NDEBUG || (stringLength >=? 0)
      then if NDEBUG || (p + n <=? Reader.end_ r)
           then if n >? string_max_size then Throws length_error
                else match Mem.load (Reader.mem r) p n with
                     | Some s => Done s (Reader.set_current r (p + n))
                     | None => Undefined
                     end
           else Abort (Reader.set_current r (p + n))
      else Abort (Reader.set_current r p)
  end.
Proof.
  unfold Reader.readTextString, Reader.readInt. unfold bind at 1.
  rewrite readPrimitive_run. change (Z.of_nat (sizeof int32_t)) with 4.
  destruct (Mem.load (Reader.mem r) (Reader.current_ r) 4) as [bs |];
    [| reflexivity].
  cbv zeta. unfold bind at 1. unfold assert_ at 1.
  destruct NDEBUG eqn:En; simpl orb.
  - unfold bind at 1. rewrite getRawPointer_run. rewrite En. simpl orb. cbv iota.
    unfold Reader.std_string.
    destruct (cast size_t (from_bytes int32_t bs) >? string_max_size);
      [reflexivity |].
    run_monad. cbn [Reader.mem Reader.current_ Reader.set_current].
    destruct (Mem.load (Reader.mem r) (Reader.current_ r + 4)
                (cast size_t (from_bytes int32_t bs))); reflexivity.
  - destruct (from_bytes int32_t bs >=? 0); [| reflexivity].
    unfold bind at 1. rewrite getRawPointer_run. rewrite En. simpl orb.
    cbn [Reader.mem Reader.current_ Reader.end_ Reader.set_current].
    destruct (Reader.current_ r + 4 + cast size_t (from_bytes int32_t bs)
              <=? Reader.end_ r); [| reflexivity].
    unfold Reader.std_string.
    destruct (cast size_t (from_bytes int32_t bs) >? string_max_size);
      [reflexivity |].
    run_monad. cbn [Reader.mem Reader.set_current].
    destruct (Mem.load (Reader.mem r) (Reader.current_ r + 4)
                (cast size_t (from_bytes int32_t bs))); reflexivity.
Qed.

(** The length of a string that was written with its prefix is below the
    limit of [std::string]. *)
Lemma prefix_below_string_max_size (v : Z) :
  0 <= v <= max_value int32_t -> (v >? string_max_size) = false.
Proof.
  intros H. rewrite Z.gtb_ltb. apply Z.ltb_ge.
  change (max_value int32_t) with 2147483647 in H.
  change string_max_size with 9223372036854775807. lia.
Qed.

Lemma unread_run (n : Z) (r : Reader.t) :
  Reader.unread n r = Done tt (Reader.set_current r (Reader.current_ r - n)).
Proof. reflexivity. Qed.

End ReaderRuns.

(** ** Round trip of the primitive types *)

Section RoundTrip.
Context {B : Build}.

(** What [writePrimitive] does when the value fits: the bytes of the
    value replace those at the cursor, and the cursor moves past them. *)
Lemma writePrimitive_fits (T : ctype) (v : Z) (w : Writer.t) :
  writer_ok w -> fits w (Z.of_nat (sizeof T)) ->
  exists b,
    Mem.store (Writer.buffer_ w) (Writer.position_ w) (to_bytes T v) = Some b /\
    Writer.writePrimitive T v w =
    Done tt (Writer.mk b (Writer.position_ w + Z.of_nat (sizeof T))
               (Writer.capacity_ w)).
Proof.
  intros [Hp Hc Hb] Hf. unfold fits in Hf.
  unfold in_range, min_value, max_value in Hp, Hc. simpl in Hp, Hc.
  exists (Mem.splice (Writer.buffer_ w) (Writer.position_ w) (to_bytes T v)).
  assert (Hs : Mem.store (Writer.buffer_ w) (Writer.position_ w) (to_bytes T v) =
               Some (Mem.splice (Writer.buffer_ w) (Writer.position_ w) (to_bytes T v))).
  { apply store_Some. rewrite length_to_bytes. split; [lia | reflexivity]. }
  split; [exact Hs |].
  rewrite writePrimitive_run, guard_fits, Hs by lia.
  rewrite size_add_nowrap by lia. reflexivity.
Qed.

(** Writing at one scalar type and reading at another of the same size
    yields the written value converted to the type read. *)
Lemma write_read_primitive (Tw Tr : ctype) (x : Z) (w : Writer.t) :
  writer_ok w -> sizeof Tw = sizeof Tr -> fits w (Z.of_nat (sizeof Tw)) ->
  round_trips (Writer.writePrimitive Tw x) (Reader.readPrimitive Tr)
              (Z.of_nat (sizeof Tw)) (cast Tr x) w.
Proof.
  intros Hok Hs Hf.
  destruct (writePrimitive_fits Tw x w Hok Hf) as (b & Hst & Hw).
  eexists. split; [exact Hw |]. split; [reflexivity |].
  intros r Hm Hc. cbn [Writer.buffer_] in Hm.
  rewrite readPrimitive_run, Hm, Hc, <- Hs.
  apply load_store_same in Hst. rewrite length_to_bytes in Hst.
  rewrite Hst. f_equal. apply from_to_bytes_cast. congruence.
Qed.

(** A read that post-processes the decoded value round-trips whenever the
    underlying read does. *)
Lemma round_trips_map {A C} (f : A -> C) write (read : M Reader.t A) n x w :
  round_trips write read n x w ->
  round_trips write (v <- read ;; ret (f v)) n (f x) w.
Proof.
  intros (w' & Hw & Hp & Hr). exists w'. repeat split; try assumption.
  intros r Hm Hc. unfold bind. rewrite (Hr r Hm Hc). reflexivity.
Qed.

Lemma round_trips_value {A} write (read : M Reader.t A) n x y w :
  x = y -> round_trips write read n x w -> round_trips write read n y w.
Proof. intros ->. exact id. Qed.

Lemma round_trip_char v w :
  writer_ok w -> fits w 1 -> in_range char_t v ->
  round_trips (Writer.writeChar v) Reader.readChar 1 v w.
Proof.
  intros Hok Hf Hv. apply round_trips_value with (x := cast char_t v).
  - apply cast_id, Hv.
  - apply (write_read_primitive char_t char_t); auto.
Qed.

Lemma round_trip_byte v w :
  writer_ok w -> fits w 1 -> in_range int8_t v ->
  round_trips (Writer.writeByte v) Reader.readByte 1 v w.
Proof.
  intros Hok Hf Hv. apply round_trips_value with (x := cast int8_t v).
  - apply cast_id, Hv.
  - apply (write_read_primitive int8_t int8_t); auto.
Qed.

Lemma round_trip_short v w :
  writer_ok w -> fits w 2 -> in_range int16_t v ->
  round_trips (Writer.writeShort v) Reader.readShort 2 v w.
Proof.
  intros Hok Hf Hv.
  apply round_trips_value with (x := cast int16_t (cast uint16_t v)).
  - rewrite cast_cast by reflexivity. apply cast_id, Hv.
  - apply (write_read_primitive uint16_t int16_t); auto.
Qed.

Lemma round_trip_int v w :
  writer_ok w -> fits w 4 -> in_range int32_t v ->
  round_trips (Writer.writeInt v) Reader.readInt 4 v w.
Proof.
  intros Hok Hf Hv. apply round_trips_value with (x := cast int32_t v).
  - apply cast_id, Hv.
  - apply (write_read_primitive int32_t int32_t); auto.
Qed.

Lemma round_trip_long v w :
  writer_ok w -> fits w 8 -> in_range int64_t v ->
  round_trips (Writer.writeLong v) Reader.readLong 8 v w.
Proof.
  intros Hok Hf Hv. apply round_trips_value with (x := cast int64_t v).
  - apply cast_id, Hv.
  - apply (write_read_primitive int64_t int64_t); auto.
Qed.

Lemma round_trip_bool (b : bool) w :
  writer_ok w -> fits w 1 ->
  round_trips (Writer.writeBool b) Reader.readBool 1 b w.
Proof.
  intros Hok Hf.
  apply round_trips_value
    with (x := negb (cast int8_t (if b then 1 else 0) =? 0)).
  - destruct b; reflexivity.
  - unfold Reader.readBool. apply (round_trips_map (fun v => negb (v =? 0))).
    apply (write_read_primitive int8_t int8_t); auto.
Qed.

Lemma round_trip_enum v w :
  writer_ok w -> fits w 1 -> in_range int8_t v ->
  round_trips (Writer.writeEnumInSingleByte v) Reader.readEnumInSingleByte 1 v w.
Proof.
  intros Hok Hf Hv.
  apply round_trips_value with (x := cast char_t (cast int8_t (cast int8_t v))).
  - rewrite !cast_cast by reflexivity. apply (cast_id char_t), Hv.
  - unfold Reader.readEnumInSingleByte. apply round_trips_map.
    destruct (write_read_primitive int8_t int8_t (cast int8_t v) w)
      as (w' & Hw & Hrest); auto.
    exists w'. split; [| exact Hrest].
    rewrite writeEnumInSingleByte_run.
    apply in_rangeb_spec in Hv. rewrite Hv, orb_true_r. exact Hw.
Qed.

Lemma round_trip_float v w :
  writer_ok w -> fits w 4 -> in_range float_t v ->
  round_trips (Writer.writeFloat v) Reader.readFloat 4 v w.
Proof.
  intros Hok Hf Hv.
  apply round_trips_value
    with (x := bit_copy int32_t float_t (cast int32_t (bit_copy float_t int32_t v))).
  - rewrite (bit_copy_cast float_t int32_t) by reflexivity.
    rewrite cast_cast by reflexivity.
    rewrite <- (bit_copy_cast float_t int32_t) by reflexivity.
    apply bit_copy_round_trip; [reflexivity | exact Hv].
  - unfold Reader.readFloat. apply round_trips_map.
    apply (write_read_primitive int32_t int32_t); auto.
Qed.

Lemma round_trip_double v w :
  writer_ok w -> fits w 8 -> in_range double_t v ->
  round_trips (Writer.writeDouble v) Reader.readDouble 8 v w.
Proof.
  intros Hok Hf Hv.
  apply round_trips_value
    with (x := bit_copy int64_t double_t (cast int64_t (bit_copy double_t int64_t v))).
  - rewrite (bit_copy_cast double_t int64_t) by reflexivity.
    rewrite cast_cast by reflexivity.
    rewrite <- (bit_copy_cast double_t int64_t) by reflexivity.
    apply bit_copy_round_trip; [reflexivity | exact Hv].
  - unfold Reader.readDouble. apply round_trips_map.
    apply (write_read_primitive int64_t int64_t); auto.
Qed.

End RoundTrip.

(** C1.  Round trip.  For each primitive type (char, signed byte, 16-, 32-
    and 64-bit signed integer, boolean, single-byte enum tag, float and
    double as bit patterns) and every value [v] of the type: when the
    remaining capacity of the Writer holds the encoded width, the typed
    write succeeds, and the Reader's matching typed read, started at the
    offset where the write began, returns exactly [v]. *)
Theorem primitive_round_trip {B : Build} (w : Writer.t) :
  writer_ok w ->
  (forall v, in_range char_t v -> fits w 1 ->
     round_trips (Writer.writeChar v) Reader.readChar 1 v w) /\
  (forall v, in_range int8_t v -> fits w 1 ->
     round_trips (Writer.writeByte v) Reader.readByte 1 v w) /\
  (forall v, in_range int16_t v -> fits w 2 ->
     round_trips (Writer.writeShort v) Reader.readShort 2 v w) /\
  (forall v, in_range int32_t v -> fits w 4 ->
     round_trips (Writer.writeInt v) Reader.readInt 4 v w) /\
  (forall v, in_range int64_t v -> fits w 8 ->
     round_trips (Writer.writeLong v) Reader.readLong 8 v w) /\
  (forall b : bool, fits w 1 ->
     round_trips (Writer.writeBool b) Reader.readBool 1 b w) /\
  (forall v, in_range int8_t v -> fits w 1 ->
     round_trips (Writer.writeEnumInSingleByte v) Reader.readEnumInSingleByte 1 v w) /\
  (forall v, in_range float_t v -> fits w 4 ->
     round_trips (Writer.writeFloat v) Reader.readFloat 4 v w) /\
  (forall v, in_range double_t v -> fits w 8 ->
     round_trips (Writer.writeDouble v) Reader.readDouble 8 v w).
Proof.
  intros Hok. repeat split; intros.
  - now apply round_trip_char.
  - now apply round_trip_byte.
  - now apply round_trip_short.
  - now apply round_trip_int.
  - now apply round_trip_long.
  - now apply round_trip_bool.
  - now apply round_trip_enum.
  - now apply round_trip_float.
  - now apply round_trip_double.
Qed.

(** ** Length-prefixed strings *)

Lemma load_all (m : Mem.storage) : Mem.load m 0 (Mem.size m) = Some m.
Proof.
  apply load_Some. split; [unfold Mem.size; lia |].
  unfold Mem.slice, Mem.size. rewrite Nat2Z.id. simpl.
  symmetry. apply firstn_all.
Qed.

Lemma load_length (m : Mem.storage) (off n : Z) (bs : list byte) :
  Mem.load m off n = Some bs -> 0 <= n /\ Z.of_nat (length bs) = n.
Proof.
  intros H. apply load_Some in H. destruct H as [(H0 & H1 & H2) ->].
  rewrite slice_length by assumption. lia.
Qed.

Section BinaryString.
Context {B : Build}.

(** What [writeBinaryString] does when prefix and payload fit: the 4-byte
    length field, holding the length converted to [int32_t], is followed
    by the first [n] bytes of the source. *)
Lemma writeBinaryString_fits (value : list byte) (n : Z) (w : Writer.t) :
  writer_ok w -> 0 <= n <= Mem.size value -> fits w (n + 4) ->
  exists w',
    Writer.writeBinaryString value n w = Done tt w' /\
    Writer.position_ w' = Writer.position_ w + n + 4 /\
    Writer.capacity_ w' = Writer.capacity_ w /\
    Mem.size (Writer.buffer_ w') = Mem.size (Writer.buffer_ w) /\
    Mem.load (Writer.buffer_ w') (Writer.position_ w) 4 =
      Some (to_bytes int32_t (cast int32_t n)) /\
    Mem.load (Writer.buffer_ w') (Writer.position_ w + 4) n =
      Some (Mem.slice value 0 n).
Proof.
  intros [Hp Hc Hb] Hn Hf. unfold fits in Hf.
  unfold in_range, min_value, max_value in Hp, Hc. simpl in Hp, Hc.
  set (prefix := to_bytes int32_t (cast int32_t n)).
  assert (Hlp : Z.of_nat (length prefix) = 4)
    by (unfold prefix; rewrite length_to_bytes; reflexivity).
  set (src := Mem.slice value 0 n).
  assert (Hsrc : Mem.load value 0 n = Some src)
    by (apply load_Some; split; [lia | reflexivity]).
  destruct (load_length _ _ _ _ Hsrc) as [_ Hls].
  destruct (Mem.store (Writer.buffer_ w) (Writer.position_ w) prefix)
    as [b1 |] eqn:H1.
  2:{ exfalso.
      assert (Mem.store (Writer.buffer_ w) (Writer.position_ w) prefix =
              Some (Mem.splice (Writer.buffer_ w) (Writer.position_ w) prefix))
        by (apply store_Some; split; [lia | reflexivity]).
      congruence. }
  pose proof (store_length _ _ _ _ H1) as Hs1.
  destruct (Mem.store b1 (Writer.position_ w + 4) src) as [b2 |] eqn:H2.
  2:{ exfalso.
      assert (Mem.store b1 (Writer.position_ w + 4) src =
              Some (Mem.splice b1 (Writer.position_ w + 4) src))
        by (apply store_Some; split; [lia | reflexivity]).
      congruence. }
  pose proof (store_length _ _ _ _ H2) as Hs2.
  exists (Writer.mk b2 (Writer.position_ w + n + 4) (Writer.capacity_ w)).
  cbn [Writer.buffer_ Writer.position_ Writer.capacity_].
  repeat split.
  - rewrite writeBinaryString_run.
    rewrite (size_add_nowrap n 4) by lia.
    rewrite guard_fits by lia.
    fold prefix. rewrite H1, Hsrc, H2.
    rewrite (size_add_nowrap 4 n) by lia.
    rewrite size_add_nowrap by lia.
    f_equal. f_equal. lia.
  - congruence.
  - rewrite (load_store_disjoint _ _ _ _ _ _ H2) by lia.
    rewrite <- Hlp. apply (load_store_same _ _ _ _ H1).
  - rewrite <- Hls. apply (load_store_same _ _ _ _ H2).
Qed.

(** Reading back a length-prefixed string whose length field is not
    negative. *)
Lemma readTextString_prefixed (r : Reader.t) (N : Z) (payload : list byte) :
  0 <= N <= max_value int32_t ->
  Mem.load (Reader.mem r) (Reader.current_ r) 4 = Some (to_bytes int32_t N) ->
  Mem.load (Reader.mem r) (Reader.current_ r + 4) N = Some payload ->
  Reader.current_ r + 4 + N <= Reader.end_ r ->
  Reader.readTextString r =
  Done payload (Reader.set_current r (Reader.current_ r + 4 + N)).
Proof.
  intros HN Hl Hp He.
  assert (Hr : in_range int32_t N).
  { unfold in_range. split; [| apply HN].
    transitivity 0; [| apply HN]. discriminate. }
  assert (Hmax : max_value int32_t < 2 ^ 64) by reflexivity.
  rewrite readTextString_run, Hl. cbv zeta.
  rewrite from_to_bytes by exact Hr.
  replace (N >=? 0) with true by (symmetry; apply Z.geb_le; lia).
  rewrite orb_true_r.
  rewrite (cast_id size_t N).
  2:{ unfold in_range, min_value, max_value. simpl is_signed. cbv iota.
      change (bits size_t) with 64. lia. }
  replace (Reader.current_ r + 4 + N <=? Reader.end_ r) with true
    by (symmetry; apply Z.leb_le; lia).
  rewrite orb_true_r, (prefix_below_string_max_size N HN), Hp. reflexivity.
Qed.

End BinaryString.

(** C3.  Length-prefix fidelity.  For a byte sequence of length [N] that a
    32-bit signed length field can hold, and a Writer with room for
    [N + 4] bytes: [writeBinaryString] stores at the cursor a 4-byte field
    that is the native encoding of [N] (and decodes to [N]), then the [N]
    payload bytes verbatim, and advances the position by exactly [N + 4].
    [readTextString], started at the same offset of the written buffer by
    a Reader whose end lies at or after the end of the string, returns the
    original [N] bytes and advances by [N + 4]. *)
Theorem binary_string_fidelity {B : Build} (payload : list byte) (w : Writer.t) :
  let N := Mem.size payload in
  writer_ok w -> N <= max_value int32_t -> fits w (N + 4) ->
  exists w',
    Writer.writeBinaryString payload N w = Done tt w' /\
    Writer.position_ w' = Writer.position_ w + N + 4 /\
    (exists field,
        Mem.load (Writer.buffer_ w') (Writer.position_ w) 4 = Some field /\
        field = to_bytes int32_t N /\ from_bytes int32_t field = N) /\
    Mem.load (Writer.buffer_ w') (Writer.position_ w + 4) N = Some payload /\
    forall r,
      Reader.mem r = Writer.buffer_ w' ->
      Reader.current_ r = Writer.position_ w ->
      Reader.current_ r + 4 + N <= Reader.end_ r ->
      exists s,
        Reader.readTextString r =
          Done s (Reader.set_current r (Reader.current_ r + 4 + N)) /\
        Mem.size s = N /\ s = payload.
Proof.
  intros N Hok HN Hf.
  assert (H0 : 0 <= N) by (unfold N, Mem.size; lia).
  assert (Hr : in_range int32_t N).
  { unfold in_range. split; [| exact HN].
    transitivity 0; [discriminate | exact H0]. }
  destruct (writeBinaryString_fits payload N w Hok ltac:(unfold N; lia) Hf)
    as (w' & Hw & Hp & _ & _ & Hfield & Hpay).
  assert (Hall : Mem.slice payload 0 N = payload).
  { pose proof (load_all payload) as Ha. apply load_Some in Ha.
    symmetry. apply Ha. }
  rewrite Hall in Hpay.
  rewrite (cast_id int32_t N Hr) in Hfield.
  exists w'. split; [exact Hw |]. split; [exact Hp |].
  split.
  { exists (to_bytes int32_t N).
    split; [exact Hfield |]. split; [reflexivity |].
    apply from_to_bytes, Hr. }
  split; [exact Hpay |].
  intros r Hm Hc He. exists payload.
  split; [| split; reflexivity].
  apply readTextString_prefixed; try (rewrite Hm, Hc; assumption); auto.
Qed.

(** ** Capacity *)

Section Capacity.
Context {B : Build}.

Lemma writer_ok_bounds (w : Writer.t) :
  writer_ok w ->
  0 <= Writer.position_ w < 2 ^ 64 /\ 0 <= Writer.capacity_ w < 2 ^ 64 /\
  Writer.capacity_ w <= Mem.size (Writer.buffer_ w).
Proof.
  intros [Hp Hc Hb].
  unfold in_range, min_value, max_value in Hp, Hc. simpl in Hp, Hc. lia.
Qed.

Lemma store_at_cursor (bs : list byte) (w : Writer.t) :
  writer_ok w -> fits w (Z.of_nat (length bs)) ->
  exists b, Mem.store (Writer.buffer_ w) (Writer.position_ w) bs = Some b.
Proof.
  intros Hok Hf. apply writer_ok_bounds in Hok. unfold fits in Hf.
  eexists. apply store_Some. split; [lia | reflexivity].
Qed.

(** With assertions on, a request that overruns the capacity stops at the
    assertion of [assureExpand], before anything is stored or moved. *)
Lemma overrun_aborts (op : write_op) (w : Writer.t) :
  NDEBUG = false -> writer_ok w -> call_ok op ->
  Writer.position_ w + requested op < 2 ^ 64 ->
  ~ fits w (requested op) ->
  run_write op w = Abort w.
Proof.
  intros Hd Hok Hcall Hnw Hover.
  pose proof (writer_ok_bounds w Hok) as (Hp & Hc & Hb).
  unfold fits in Hover.
  assert (Hprim : forall T v,
             Z.of_nat (sizeof T) = requested op ->
             Writer.writePrimitive T v w = Abort w).
  { intros T v Hreq. rewrite writePrimitive_run, guard_overrun; auto; lia. }
  destruct op; cbn [run_write requested call_ok] in *;
    try (apply Hprim; reflexivity).
  - (* writeEnumInSingleByte *)
    rewrite writeEnumInSingleByte_run, Hd.
    apply in_rangeb_spec in Hcall. rewrite Hcall. simpl orb. cbv iota.
    apply Hprim. reflexivity.
  - (* writeBinaryString *)
    rewrite writeBinaryString_run.
    rewrite (size_add_nowrap length 4) by lia.
    rewrite guard_overrun; auto; lia.
  - (* writeBytes *)
    rewrite writeBytes_run, guard_overrun; auto; lia.
  - (* writeZeros *)
    rewrite writeZeros_run, guard_overrun; auto; lia.
  - (* reserveBytes *)
    unfold bind. rewrite reserveBytes_run, guard_overrun; auto; lia.
Qed.

(** A request that fits is carried out, in every build. *)
Lemma fitting_write_proceeds (op : write_op) (w : Writer.t) :
  writer_ok w -> call_ok op -> fits w (requested op) ->
  exists w',
    run_write op w = Done tt w' /\
    Writer.position_ w' = Writer.position_ w + requested op /\
    Writer.capacity_ w' = Writer.capacity_ w.
Proof.
  intros Hok Hcall Hf.
  pose proof (writer_ok_bounds w Hok) as (Hp & Hc & Hb).
  assert (Hprim : forall T v,
             Z.of_nat (sizeof T) = requested op ->
             exists w',
               Writer.writePrimitive T v w = Done tt w' /\
               Writer.position_ w' = Writer.position_ w + requested op /\
               Writer.capacity_ w' = Writer.capacity_ w).
  { intros T v Hreq. rewrite <- Hreq in *.
    destruct (writePrimitive_fits T v w Hok Hf) as (b & _ & Hw).
    eexists. split; [exact Hw |]. split; reflexivity. }
  unfold fits in Hf.
  destruct op; cbn [run_write requested call_ok] in *;
    try (apply Hprim; reflexivity).
  - (* writeEnumInSingleByte *)
    rewrite writeEnumInSingleByte_run.
    apply in_rangeb_spec in Hcall. rewrite Hcall, orb_true_r.
    apply Hprim. reflexivity.
  - (* writeBinaryString *)
    destruct (writeBinaryString_fits value length w Hok Hcall Hf)
      as (w' & Hw & Hpos & Hcap & _).
    exists w'. repeat split; auto; lia.
  - (* writeBytes *)
    assert (Hsrc : Mem.load value 0 length = Some (Mem.slice value 0 length))
      by (apply load_Some; split; [lia | reflexivity]).
    destruct (load_length _ _ _ _ Hsrc) as [_ Hl].
    destruct (store_at_cursor (Mem.slice value 0 length) w Hok) as [b Hst];
      [unfold fits; lia |].
    rewrite writeBytes_run, guard_fits, Hsrc, Hst by lia.
    rewrite size_add_nowrap by lia.
    eexists. split; [reflexivity |]. split; reflexivity.
  - (* writeZeros *)
    destruct (store_at_cursor (repeat Byte.x00 (Z.to_nat length)) w Hok)
      as [b Hst]; [unfold fits; rewrite repeat_length; lia |].
    rewrite writeZeros_run, guard_fits, Hst by lia.
    rewrite size_add_nowrap by lia.
    eexists. split; [reflexivity |]. split; reflexivity.
  - (* reserveBytes *)
    unfold bind. rewrite reserveBytes_run, guard_fits by lia.
    rewrite size_add_nowrap by lia.
    eexists. split; [reflexivity |]. split; reflexivity.
Qed.

End Capacity.

(** C2, as the code has it.  For every well-formed call of a Writer
    operation that requests [n] bytes at position [p] (with [p + n]
    representable in [size_t]): in a build with assertions, if [p + n]
    exceeds the capacity the call stops at the assertion of [assureExpand]
    with the buffer and the position exactly as they were; in every build,
    if [p + n <= capacity] the write is carried out, and the position
    advances by [n]. *)
Theorem capacity_enforced_by_assertion {B : Build} (op : write_op) (w : Writer.t) :
  writer_ok w -> call_ok op ->
  (NDEBUG = false ->
   Writer.position_ w + requested op < 2 ^ 64 ->
   Writer.position_ w + requested op > Writer.capacity_ w ->
   run_write op w = Abort w) /\
  (Writer.position_ w + requested op <= Writer.capacity_ w ->
   exists w',
     run_write op w = Done tt w' /\
     Writer.position_ w' = Writer.position_ w + requested op /\
     Writer.capacity_ w' = Writer.capacity_ w).
Proof.
  intros Hok Hcall. split.
  - intros Hd Hnw Hover. apply overrun_aborts; auto; unfold fits; lia.
  - intros Hf. apply fitting_write_proceeds; auto.
Qed.

(** ** Frame *)

Lemma same_outside_store (m m' : Mem.storage) (off n : Z) (bs : list byte) :
  Mem.store m off bs = Some m' ->
  Z.of_nat (length bs) <= n \/ bs = [] ->
  same_outside m m' off n.
Proof.
  intros Hst Hn. split; [apply (store_length _ _ _ _ Hst) |].
  intros i Hi. apply (byte_at_store_other _ _ _ _ _ Hst).
  destruct Hn as [Hn | ->]; simpl; lia.
Qed.

Section Frame.
Context {B : Build}.

Lemma writePrimitive_frame (T : ctype) (v : Z) (w w' : Writer.t) :
  Writer.writePrimitive T v w = Done tt w' ->
  same_outside (Writer.buffer_ w) (Writer.buffer_ w') (Writer.position_ w)
               (Z.of_nat (sizeof T)).
Proof.
  rewrite writePrimitive_run.
  destruct (NDEBUG || _); [| discriminate].
  destruct (Mem.store _ _ _) as [b |] eqn:Hst; [| discriminate].
  intros [= <-]. cbn [Writer.buffer_].
  apply (same_outside_store _ _ _ _ _ Hst).
  left. rewrite length_to_bytes. lia.
Qed.

(** Every write that returns changed no byte outside the [written op]
    bytes at the position it started from. *)
Lemma write_frame (op : write_op) (w w' : Writer.t) :
  run_write op w = Done tt w' ->
  same_outside (Writer.buffer_ w) (Writer.buffer_ w') (Writer.position_ w)
               (written op).
Proof.
  destruct op; cbn [run_write written requested];
    try (apply writePrimitive_frame).
  - (* writeEnumInSingleByte *)
    rewrite writeEnumInSingleByte_run.
    destruct (NDEBUG || _); [| discriminate].
    apply writePrimitive_frame.
  - (* writeBinaryString *)
    rewrite writeBinaryString_run.
    destruct (NDEBUG || _); [| discriminate].
    destruct (Mem.store _ _ _) as [b1 |] eqn:H1; [| discriminate].
    destruct (Mem.load _ _ _) as [src |] eqn:Hl; [| discriminate].
    destruct (Mem.store b1 _ _) as [b2 |] eqn:H2; [| discriminate].
    intros [= <-]. cbn [Writer.buffer_].
    destruct (load_length _ _ _ _ Hl) as [Hn Hls].
    pose proof (store_length _ _ _ _ H1) as Hs1.
    pose proof (store_length _ _ _ _ H2) as Hs2.
    split; [congruence |].
    intros i Hi.
    rewrite (byte_at_store_other _ _ _ _ i H2) by lia.
    apply (byte_at_store_other _ _ _ _ i H1).
    rewrite length_to_bytes. simpl sizeof. lia.
  - (* writeBytes *)
    rewrite writeBytes_run.
    destruct (NDEBUG || _); [| discriminate].
    destruct (Mem.load _ _ _) as [src |] eqn:Hl; [| discriminate].
    destruct (Mem.store _ _ _) as [b |] eqn:Hst; [| discriminate].
    intros [= <-]. cbn [Writer.buffer_].
    destruct (load_length _ _ _ _ Hl) as [Hn Hls].
    apply (same_outside_store _ _ _ _ _ Hst). left. lia.
  - (* writeZeros *)
    rewrite writeZeros_run.
    destruct (NDEBUG || _); [| discriminate].
    destruct (Mem.store _ _ _) as [b |] eqn:Hst; [| discriminate].
    intros [= <-]. cbn [Writer.buffer_].
    apply (same_outside_store _ _ _ _ _ Hst).
    destruct (Z.to_nat length) eqn:E; [right; reflexivity | left].
    rewrite repeat_length. lia.
  - (* reserveBytes *)
    unfold bind. rewrite reserveBytes_run.
    destruct (NDEBUG || _); [| discriminate].
    intros [= <-]. cbn [Writer.buffer_].
    split; [reflexivity | reflexivity].
Qed.

(** [reserveBytes] and the position accessors store nothing. *)
Lemma cursor_moves_store_nothing (w : Writer.t) :
  (forall n a w', Writer.reserveBytes n w = Done a w' ->
                  Writer.buffer_ w' = Writer.buffer_ w) /\
  (forall a w', Writer.position w = Done a w' ->
                Writer.buffer_ w' = Writer.buffer_ w) /\
  (forall pos a w', Writer.position_set pos w = Done a w' ->
                    Writer.buffer_ w' = Writer.buffer_ w).
Proof.
  repeat split.
  - intros n a w'. rewrite reserveBytes_run.
    destruct (NDEBUG || _); [| discriminate].
    intros [= _ <-]. reflexivity.
  - intros a w' H. inversion H; subst. reflexivity.
  - intros pos a w' H. inversion H; subst. reflexivity.
Qed.

Lemma keeps_storage_bind {A C} (m : M Reader.t A) (k : A -> M Reader.t C) :
  keeps_storage m -> (forall a, keeps_storage (k a)) ->
  keeps_storage (bind m k).
Proof.
  intros Hm Hk r s. unfold bind.
  specialize (Hm r). destruct (m r) as [a r1 | r1 | e |].
  - intros H. rewrite (Hk a r1 s H). apply Hm. reflexivity.
  - apply Hm.
  - discriminate.
  - discriminate.
Qed.

Lemma keeps_storage_ret {A} (a : A) : keeps_storage (ret a).
Proof. intros r s [= <-]. reflexivity. Qed.

Lemma keeps_storage_fmap {A C} (f : A -> C) (m : M Reader.t A) :
  keeps_storage m -> keeps_storage (fmap f m).
Proof.
  intros H. apply keeps_storage_bind; [exact H |].
  intros a. apply keeps_storage_ret.
Qed.

Lemma readPrimitive_keeps (T : ctype) : keeps_storage (Reader.readPrimitive T).
Proof.
  intros r s. rewrite readPrimitive_run.
  destruct (Mem.load _ _ _); [| discriminate].
  intros [= <-]. reflexivity.
Qed.

Lemma getRawPointer_keeps (n : Z) : keeps_storage (Reader.getRawPointer n).
Proof.
  intros r s. rewrite getRawPointer_run.
  destruct (NDEBUG || _); intros [= <-]; reflexivity.
Qed.

Lemma readBytes_keeps (n : Z) : keeps_storage (Reader.readBytes n).
Proof.
  intros r s. rewrite readBytes_run.
  destruct (NDEBUG || _); [destruct (Mem.load _ _ _); [| discriminate] |];
    intros [= <-]; reflexivity.
Qed.

Lemma readTextString_keeps : keeps_storage Reader.readTextString.
Proof.
  intros r s. rewrite readTextString_run.
  destruct (Mem.load _ _ 4); [| discriminate]. cbv zeta.
  destruct (NDEBUG || _); [| intros [= <-]; reflexivity].
  destruct (NDEBUG || _); [| intros [= <-]; reflexivity].
  destruct (_ >? string_max_size); [discriminate |].
  destruct (Mem.load _ _ _); [| discriminate].
  intros [= <-]. reflexivity.
Qed.

Lemma unread_keeps (n : Z) : keeps_storage (Reader.unread n).
Proof. intros r s [= <-]. reflexivity. Qed.

Lemma read_frame (op : read_op) : keeps_storage (run_read op).
Proof.
  destruct op; cbn [run_read]; apply keeps_storage_fmap;
    try apply readPrimitive_keeps;
    try (apply keeps_storage_bind;
         [apply readPrimitive_keeps | intros; apply keeps_storage_ret]).
  - apply getRawPointer_keeps.
  - apply readTextString_keeps.
  - apply readBytes_keeps.
  - apply unread_keeps.
Qed.

End Frame.

(** C10.  Frame.  A Writer operation that returns after writing [w] bytes
    at position [p] leaves the size of the buffer and every byte at an
    offset outside [[p, p + w)] unchanged; [reserveBytes] and the position
    getter and setter leave the whole buffer unchanged; and no Reader
    operation changes the storage it reads from. *)
Theorem serializer_frame {B : Build} :
  (forall op w w',
      run_write op w = Done tt w' ->
      Mem.size (Writer.buffer_ w') = Mem.size (Writer.buffer_ w) /\
      forall i,
        i < Writer.position_ w \/ Writer.position_ w + written op <= i ->
        Mem.byte_at (Writer.buffer_ w') i = Mem.byte_at (Writer.buffer_ w) i) /\
  (forall w,
      (forall n a w', Writer.reserveBytes n w = Done a w' ->
                      Writer.buffer_ w' = Writer.buffer_ w) /\
      (forall a w', Writer.position w = Done a w' ->
                    Writer.buffer_ w' = Writer.buffer_ w) /\
      (forall pos a w', Writer.position_set pos w = Done a w' ->
                        Writer.buffer_ w' = Writer.buffer_ w)) /\
  (forall op r r',
      final (run_read op r) = Some r' -> Reader.mem r' = Reader.mem r).
Proof.
  split; [| split].
  - intros op w w' H. apply (write_frame op w w' H).
  - apply cursor_moves_store_nothing.
  - intros op. apply read_frame.
Qed.

(** ** Position, size and back-patching *)

Lemma bind_Done {S A C} (m : M S A) (k : A -> M S C) (s s' : S) (a : A) :
  m s = Done a s' -> bind m k s = k a s'.
Proof. intros H. unfold bind. rewrite H. reflexivity. Qed.

(** C9.  [size()] returns exactly the current position, and the position
    setter stores whatever offset it is given, without looking at the
    capacity or the buffer.  So [size()] is not a high-water mark: right
    after the position is set to [pos], be it below the old position or
    above the capacity, [size()] reports [pos], and it reports the old
    position again only once the caller has set it back. *)
Theorem size_is_position :
  (forall w, Writer.size w = Done (Writer.position_ w) w) /\
  (forall w pos,
      Writer.position_set pos w =
      Done tt (Writer.mk (Writer.buffer_ w) pos (Writer.capacity_ w))) /\
  (forall w pos,
      (Writer.position_set pos ;; Writer.size) w =
      Done pos (Writer.mk (Writer.buffer_ w) pos (Writer.capacity_ w))) /\
  (forall w pos,
      (old <- Writer.position ;;
       Writer.position_set pos ;;
       during <- Writer.size ;;
       Writer.position_set old ;;
       after <- Writer.size ;;
       ret (during, after)) w =
      Done (pos, Writer.position_ w)
           (Writer.mk (Writer.buffer_ w) (Writer.position_ w) (Writer.capacity_ w))).
Proof. repeat split. Qed.

Section BackPatch.
Context {B : Build}.

(** The constructor: position 0 and the capacity it is given. *)
Lemma new_run (buffer : Mem.storage) (capacity : Z) :
  0 <= capacity ->
  Writer.new buffer capacity = Done tt (Writer.mk buffer 0 capacity).
Proof.
  intros H. unfold Writer.new. run_monad.
  cbn [Writer.position_ Writer.buffer_ Writer.set_buffer_].
  apply Z.leb_le in H. rewrite H.
  destruct NDEBUG; reflexivity.
Qed.

Lemma back_patch_run (storage downstream : list byte) (computed : Z) :
  8 <= Mem.size storage -> Mem.size downstream = 4 ->
  exists b1 b2,
    Mem.store storage 4 downstream = Some b1 /\
    Mem.store b1 0 (to_bytes int32_t computed) = Some b2 /\
    back_patch downstream computed (Writer.mk storage 0 8) =
    Done (0, 4, 8, 8) (Writer.mk b2 8 8).
Proof.
  intros Hs Hd.
  assert (H1 : Mem.store storage 4 downstream =
               Some (Mem.splice storage 4 downstream))
    by (apply store_Some; unfold Mem.size in Hd; split; [lia | reflexivity]).
  pose proof (store_length _ _ _ _ H1) as Hs1.
  set (b1 := Mem.splice storage 4 downstream) in *.
  assert (H2 : Mem.store b1 0 (to_bytes int32_t computed) =
               Some (Mem.splice b1 0 (to_bytes int32_t computed))).
  { apply store_Some. rewrite length_to_bytes. simpl sizeof.
    split; [lia | reflexivity]. }
  set (b2 := Mem.splice b1 0 (to_bytes int32_t computed)) in *.
  exists b1, b2. split; [exact H1 |]. split; [exact H2 |].
  unfold back_patch.
  (* reserveBytes(4): offset 0, position 4 *)
  erewrite bind_Done.
  2:{ rewrite reserveBytes_run. cbn [Writer.position_ Writer.capacity_].
      change (size_add 0 4) with 4. change (8 >=? 4) with true.
      rewrite orb_true_r. reflexivity. }
  erewrite bind_Done by reflexivity.
  cbn [Writer.position_ Writer.buffer_].
  (* writeBytes(downstream, 4): position 8 *)
  erewrite bind_Done.
  2:{ rewrite writeBytes_run.
      cbn [Writer.position_ Writer.capacity_ Writer.buffer_].
      change (size_add 4 4) with 8. change (8 >=? 8) with true.
      rewrite orb_true_r.
      replace (Mem.load downstream 0 4) with (Some downstream)
        by (rewrite <- Hd; symmetry; apply load_all).
      rewrite H1. reflexivity. }
  erewrite bind_Done by reflexivity.
  (* position(0); writeInt(computed); position(8); size() *)
  erewrite bind_Done by reflexivity.
  erewrite bind_Done.
  2:{ unfold Writer.writeInt. rewrite writePrimitive_run.
      cbn [Writer.position_ Writer.capacity_ Writer.buffer_ Writer.set_position_].
      change (size_add 0 (Z.of_nat (sizeof int32_t))) with 4.
      change (8 >=? 4) with true.
      rewrite orb_true_r, H2. reflexivity. }
  reflexivity.
Qed.

End BackPatch.

(** C8.  Back-patch correctness.  For a Writer of capacity 8 constructed
    over storage of at least 8 bytes: [reserveBytes(4)] returns offset 0
    and leaves the position at 4; writing 4 downstream bytes moves it to 8;
    after setting the position to 0, writing the computed 32-bit value, and
    setting the position to 8, the first 4 bytes of the buffer are the
    native encoding of the computed value, the bytes at offsets 4..7 are
    the downstream bytes, and [size()] reports 8. *)
Theorem back_patch_correct {B : Build}
        (storage downstream : list byte) (computed : Z) :
  8 <= Mem.size storage -> Mem.size downstream = 4 ->
  exists w0 w',
    Writer.new storage 8 = Done tt w0 /\
    back_patch downstream computed w0 = Done (0, 4, 8, 8) w' /\
    Mem.load (Writer.buffer_ w') 0 4 = Some (to_bytes int32_t computed) /\
    Mem.load (Writer.buffer_ w') 4 4 = Some downstream /\
    Mem.size (Writer.buffer_ w') = Mem.size storage /\
    Writer.size w' = Done 8 w'.
Proof.
  intros Hs Hd.
  destruct (back_patch_run storage downstream computed Hs Hd)
    as (b1 & b2 & H1 & H2 & Hrun).
  exists (Writer.mk storage 0 8), (Writer.mk b2 8 8). cbn [Writer.buffer_].
  split; [apply new_run; discriminate |].
  split; [exact Hrun |].
  pose proof (load_store_same _ _ _ _ H2) as L2.
  rewrite length_to_bytes in L2.
  split; [exact L2 |].
  split.
  { rewrite (load_store_disjoint _ _ _ _ 4 4 H2)
      by (rewrite length_to_bytes; simpl; lia).
    rewrite <- Hd at 2. apply (load_store_same _ _ _ _ H1). }
  split; [| reflexivity].
  rewrite (store_length _ _ _ _ H2), (store_length _ _ _ _ H1). reflexivity.
Qed.

(** ** The Reader and the end of its buffer *)

Section ReaderBounds.
Context {B : Build}.

(** A fixed-width read never looks at [end_]: it returns whenever the
    storage holds the bytes, and advances by its width. *)
Lemma fixed_width_unchecked (op : read_op) (n : Z) (r : Reader.t) :
  fixed_width op = Some n ->
  Mem.in_bounds (Reader.mem r) (Reader.current_ r) n = true ->
  exists v,
    run_read op r = Done v (Reader.set_current r (Reader.current_ r + n)).
Proof.
  intros Hfw Hb.
  assert (Hl : Mem.load (Reader.mem r) (Reader.current_ r) n =
               Some (Mem.slice (Reader.mem r) (Reader.current_ r) n))
    by (unfold Mem.load; rewrite Hb; reflexivity).
  destruct op; inversion Hfw; subst n; cbn [run_read];
    unfold fmap, Reader.readChar, Reader.readByte, Reader.readShort,
      Reader.readInt, Reader.readBool, Reader.readEnumInSingleByte,
      Reader.readLong, Reader.readFloat, Reader.readDouble, Reader.readByte,
      bind;
    rewrite readPrimitive_run;
    cbn [sizeof Z.of_nat Pos.of_succ_nat Pos.succ];
    rewrite Hl; eexists; reflexivity.
Qed.

(** With assertions on, a read through [getRawPointer] returns only with
    the cursor at or before the end. *)
Lemma checked_read_within (op : read_op) (r r' : Reader.t) (v : read_result) :
  NDEBUG = false -> checked op = true ->
  run_read op r = Done v r' ->
  Reader.current_ r' <= Reader.end_ r'.
Proof.
  intros Hd Hc.
  destruct op; try discriminate Hc; cbn [run_read]; unfold fmap, bind.
  - rewrite getRawPointer_run, Hd. simpl orb.
    destruct (Z.leb_spec (Reader.current_ r + length) (Reader.end_ r));
      [| discriminate].
    intros [= _ <-]. simpl. assumption.
  - rewrite readTextString_run.
    destruct (Mem.load _ _ 4); [| discriminate]. cbv zeta.
    rewrite Hd. simpl orb.
    destruct (_ >=? 0); [| discriminate].
    destruct (Z.leb_spec
                (Reader.current_ r + 4 + cast size_t (from_bytes int32_t l))
                (Reader.end_ r)); [| discriminate].
    destruct (_ >? string_max_size); [discriminate |].
    destruct (Mem.load _ _ _); [| discriminate].
    intros [= _ <-]. simpl. assumption.
  - rewrite readBytes_run, Hd. simpl orb.
    destruct (Z.leb_spec (Reader.current_ r + length) (Reader.end_ r));
      [| discriminate].
    destruct (Mem.load _ _ _); [| discriminate].
    intros [= _ <-]. simpl. assumption.
Qed.

(** With assertions on, [getRawPointer] and [readBytes] stop at the
    assertion when the advance passes the end. *)
Lemma raw_read_past_end (n : Z) (r : Reader.t) :
  NDEBUG = false ->
  Reader.current_ r + n > Reader.end_ r ->
  run_read (GetRawPointer n) r =
    Abort (Reader.set_current r (Reader.current_ r + n)) /\
  run_read (ReadBytes n) r =
    Abort (Reader.set_current r (Reader.current_ r + n)).
Proof.
  intros Hd He. cbn [run_read]. unfold fmap, bind.
  rewrite getRawPointer_run, readBytes_run, Hd. simpl orb.
  destruct (Z.leb_spec (Reader.current_ r + n) (Reader.end_ r)); [lia |].
  split; reflexivity.
Qed.

(** With assertions on, so does [readTextString] when prefix and payload
    together pass the end. *)
Lemma text_read_past_end (r : Reader.t) (bs : list byte) :
  NDEBUG = false ->
  Mem.load (Reader.mem r) (Reader.current_ r) 4 = Some bs ->
  0 <= from_bytes int32_t bs ->
  Reader.current_ r + 4 + from_bytes int32_t bs > Reader.end_ r ->
  run_read ReadTextString r =
    Abort (Reader.set_current r (Reader.current_ r + 4 + from_bytes int32_t bs)).
Proof.
  intros Hd Hl H0 He. cbn [run_read]. unfold fmap, bind.
  rewrite readTextString_run, Hl, Hd. cbv zeta. simpl orb.
  assert (Hsz : cast size_t (from_bytes int32_t bs) = from_bytes int32_t bs).
  { apply cast_id. pose proof (cast_in_range int32_t (le_combine (native bs))) as Hr.
    fold (from_bytes int32_t bs) in Hr.
    unfold in_range, min_value, max_value in *.
    simpl is_signed in *. cbv iota in *.
    change (bits size_t) with 64. change (bits int32_t) with 32 in Hr. lia. }
  rewrite Hsz.
  replace (from_bytes int32_t bs >=? 0) with true
    by (symmetry; apply Z.geb_le; lia).
  destruct (Z.leb_spec (Reader.current_ r + 4 + from_bytes int32_t bs)
                       (Reader.end_ r)); [lia | reflexivity].
Qed.

(** With assertions on, a negative length prefix stops [readTextString]
    at its first assertion, the cursor just past the prefix. *)
Lemma negative_length_aborts (r : Reader.t) (bs : list byte) :
  NDEBUG = false ->
  Mem.load (Reader.mem r) (Reader.current_ r) 4 = Some bs ->
  from_bytes int32_t bs < 0 ->
  Reader.readTextString r =
    Abort (Reader.set_current r (Reader.current_ r + 4)).
Proof.
  intros Hd Hl Hneg.
  rewrite readTextString_run, Hl, Hd. cbv zeta. simpl orb.
  replace (from_bytes int32_t bs >=? 0) with false; [reflexivity |].
  symmetry. rewrite Z.geb_leb. apply Z.leb_gt. exact Hneg.
Qed.

(** With assertions compiled out, the negative length is converted to
    [size_t], the cursor is advanced by it, and [std::string] refuses the
    converted length before it copies anything. *)
Lemma negative_length_throws (r : Reader.t) (bs : list byte) :
  NDEBUG = true ->
  Mem.load (Reader.mem r) (Reader.current_ r) 4 = Some bs ->
  from_bytes int32_t bs < 0 ->
  Reader.readTextString r = Throws length_error.
Proof.
  intros Hd Hl Hneg.
  rewrite readTextString_run, Hl, Hd. cbv zeta. simpl orb. cbv iota.
  replace (cast size_t (from_bytes int32_t bs) >? string_max_size) with true;
    [reflexivity |].
  symmetry. rewrite Z.gtb_ltb. apply Z.ltb_lt.
  pose proof (cast_in_range int32_t (le_combine (native bs))) as Hr.
  fold (from_bytes int32_t bs) in Hr.
  unfold in_range, min_value, max_value in Hr.
  simpl is_signed in Hr. cbv iota in Hr. change (bits int32_t) with 32 in Hr.
  unfold cast. simpl is_signed. cbv iota. change (bits size_t) with 64.
  replace (from_bytes int32_t bs mod 2 ^ 64) with (from_bytes int32_t bs + 2 ^ 64).
  2:{ apply Z.mod_unique with (q := -1); lia. }
  change string_max_size with 9223372036854775807. lia.
Qed.

End ReaderBounds.

(** C4, as the code has it.  The reads that go through [getRawPointer]
    (itself, [readBytes] and the length-prefixed text read) are guarded by
    the assertion [current_ <= end_]: in a build with assertions they stop
    at it when the requested width would advance [current_] past [end_],
    and whenever one of them returns, [current_ <= end_].  For
    [getRawPointer] and [readBytes] the requested length is the caller's:
    it is taken below 2^63 and the cursor and the end inside the storage,
    so that the 64-bit pointer sum [current_ + length] cannot wrap. *)
Theorem reader_end_checked_by_assertion {B : Build} (r : Reader.t) :
  NDEBUG = false ->
  (forall op v r',
      checked op = true -> run_read op r = Done v r' ->
      Reader.current_ r' <= Reader.end_ r') /\
  (forall n,
      in_storage r (Reader.current_ r) -> in_storage r (Reader.end_ r) ->
      0 <= n < address_space_half ->
      Reader.current_ r + n > Reader.end_ r ->
      run_read (GetRawPointer n) r =
        Abort (Reader.set_current r (Reader.current_ r + n)) /\
      run_read (ReadBytes n) r =
        Abort (Reader.set_current r (Reader.current_ r + n))) /\
  (forall bs,
      Mem.load (Reader.mem r) (Reader.current_ r) 4 = Some bs ->
      0 <= from_bytes int32_t bs ->
      Reader.current_ r + 4 + from_bytes int32_t bs > Reader.end_ r ->
      run_read ReadTextString r =
        Abort (Reader.set_current r
                 (Reader.current_ r + 4 + from_bytes int32_t bs))).
Proof.
  intros Hd. split; [| split].
  - intros op v r' Hc Hrun. apply (checked_read_within op r r' v Hd Hc Hrun).
  - intros n _ _ _. apply raw_read_past_end. exact Hd.
  - intros bs. apply text_read_past_end. exact Hd.
Qed.

(** C5, as the code has it.  When the next 4 bytes decode to a negative
    32-bit length, [readTextString] fails in every build, and the payload
    is not read.  In a build with assertions it stops at the assertion
    [stringLength >= 0]: the process is aborted with the cursor just past
    the prefix.  With assertions compiled out the method itself checks
    nothing: the length is converted to [size_t], and the call is left by
    the [std::length_error] with which [std::string] refuses the converted
    length before it copies a byte.  No [InvalidLength] error exists. *)
Theorem negative_length_fails_before_payload {B : Build}
        (r : Reader.t) (bs : list byte) :
  Mem.load (Reader.mem r) (Reader.current_ r) 4 = Some bs ->
  from_bytes int32_t bs < 0 ->
  Reader.readTextString r =
    if NDEBUG
    then Throws length_error
    else Abort (Reader.mk (Reader.mem r) (Reader.current_ r + 4) (Reader.end_ r)).
Proof.
  intros Hl Hn. destruct NDEBUG eqn:Hd.
  - apply (negative_length_throws r bs Hd Hl Hn).
  - apply (negative_length_aborts r bs Hd Hl Hn).
Qed.

(** C6, as the code has it.  [unread] moves the read cursor back by the
    given number of bytes unconditionally, in every build: the Reader keeps
    no record of where its buffer starts, validates nothing and reports
    nothing.  Wherever the buffer starts, a rewind that would place the
    cursor before the start returns normally with the cursor there.  The
    rewind is taken from a cursor inside the storage to at most a page
    before the storage, so that the 64-bit pointer difference
    [current_ - bytes] cannot wrap. *)
Theorem unread_is_unchecked (r : Reader.t) (b : Z) :
  in_storage r (Reader.current_ r) ->
  0 <= b <= Reader.current_ r + first_page ->
  Reader.unread b r =
    Done tt (Reader.mk (Reader.mem r) (Reader.current_ r - b) (Reader.end_ r)) /\
  (forall start,
      Reader.current_ r - b < start ->
      exists r',
        Reader.unread b r = Done tt r' /\
        Reader.current_ r' < start /\
        Reader.end_ r' = Reader.end_ r /\ Reader.mem r' = Reader.mem r).
Proof.
  intros _ _. split.
  - apply unread_run.
  - intros start Hlt. eexists. split; [apply unread_run |].
    cbn [Reader.current_ Reader.end_ Reader.mem Reader.set_current].
    repeat split. exact Hlt.
Qed.

(** ** The single-byte enum tag *)

Lemma to_bytes_int8 {B : Build} (v : Z) : to_bytes int8_t v = [byte.of_Z v].
Proof. unfold to_bytes, native. destruct big_endian; reflexivity. Qed.

(** C7, as the code has it.  In a build with assertions, an enum tag
    outside [[-128, 127]] stops [writeEnumInSingleByte] at its assertion
    with nothing written and the position unchanged.  A tag inside the
    range, given room for one byte, is written as exactly the one byte
    holding it, and the position advances by 1. *)
Theorem enum_tag_checked_by_assertion {B : Build} (v : Z) (w : Writer.t) :
  (NDEBUG = false -> ~ in_range int8_t v ->
   Writer.writeEnumInSingleByte v w = Abort w) /\
  (in_range int8_t v -> writer_ok w -> fits w 1 ->
   exists w',
     Writer.writeEnumInSingleByte v w = Done tt w' /\
     Writer.position_ w' = Writer.position_ w + 1 /\
     Mem.load (Writer.buffer_ w') (Writer.position_ w) 1 = Some [byte.of_Z v] /\
     from_bytes int8_t [byte.of_Z v] = v /\
     same_outside (Writer.buffer_ w) (Writer.buffer_ w') (Writer.position_ w) 1).
Proof.
  split.
  - intros Hd Hout. rewrite writeEnumInSingleByte_run, Hd. simpl orb.
    destruct (in_rangeb int8_t v) eqn:E; [| reflexivity].
    apply in_rangeb_spec in E. contradiction.
  - intros Hin Hok Hf.
    destruct (writePrimitive_fits int8_t (cast int8_t v) w Hok Hf)
      as (b & Hst & Hw).
    rewrite (cast_id int8_t v Hin) in Hst, Hw.
    rewrite to_bytes_int8 in Hst.
    eexists. split.
    { rewrite writeEnumInSingleByte_run.
      apply in_rangeb_spec in Hin. rewrite Hin, orb_true_r.
      apply in_rangeb_spec in Hin. rewrite (cast_id int8_t v Hin). exact Hw. }
    cbn [Writer.position_ Writer.buffer_].
    split; [reflexivity |].
    split; [apply (load_store_same _ _ _ _ Hst) |].
    split; [rewrite <- to_bytes_int8; apply from_to_bytes, Hin |].
    apply (same_outside_store _ _ _ _ _ Hst). left. simpl. lia.
Qed.

(** * Concrete runs *)

Lemma writer_ok_intro (w : Writer.t) :
  0 <= Writer.position_ w < 2 ^ 64 ->
  0 <= Writer.capacity_ w < 2 ^ 64 ->
  Writer.capacity_ w <= Mem.size (Writer.buffer_ w) ->
  writer_ok w.
Proof.
  intros Hp Hc Hb.
  constructor; try assumption;
    unfold in_range, min_value, max_value; simpl is_signed; cbv iota;
    change (bits size_t) with 64; lia.
Qed.

Ltac by_computation := vm_compute; intuition discriminate.

(** The two byte orders of the 32-bit integer 42 and of -2. *)
Example native_layouts :
  @to_bytes debug_le int32_t 42 = [Byte.x2a; Byte.x00; Byte.x00; Byte.x00] /\
  @to_bytes debug_be int32_t 42 = [Byte.x00; Byte.x00; Byte.x00; Byte.x2a] /\
  @to_bytes debug_le int16_t (-2) = [Byte.xfe; Byte.xff] /\
  @from_bytes debug_be int16_t [Byte.xff; Byte.xfe] = -2.
Proof. repeat split. Qed.

(** Writing the 32-bit integer 42 into a 4-byte buffer and decoding it. *)
Lemma primitive_round_trip_witness :
  let w := Writer.mk (repeat Byte.x00 4) 0 4 in
  writer_ok w /\ in_range int32_t 42 /\ fits w 4 /\
  round_trips (@Writer.writeInt debug_le 42) (@Reader.readInt debug_le) 4 42 w.
Proof.
  intros w.
  assert (Hok : writer_ok w) by (apply writer_ok_intro; by_computation).
  assert (Hv : in_range int32_t 42) by by_computation.
  assert (Hf : fits w 4) by by_computation.
  repeat (split; [assumption |]).
  destruct (@primitive_round_trip debug_le w Hok) as (_ & _ & _ & Hint & _).
  exact (Hint 42 Hv Hf).
Defined.

(** Five bytes do not go into a buffer of capacity 4; four do. *)
Lemma capacity_enforced_by_assertion_witness :
  let w := Writer.mk (repeat Byte.x00 4) 0 4 in
  let five := WriteBytes [Byte.x01; Byte.x02; Byte.x03; Byte.x04; Byte.x05] 5 in
  let four := WriteInt 42 in
  writer_ok w /\ call_ok five /\ call_ok four /\
  @run_write debug_le five w = Abort w /\
  exists w', @run_write debug_le four w = Done tt w' /\
             Writer.position_ w' = 4 /\ Writer.capacity_ w' = 4.
Proof.
  intros w five four.
  assert (Hok : writer_ok w) by (apply writer_ok_intro; by_computation).
  assert (H5 : call_ok five) by by_computation.
  assert (H4 : call_ok four) by exact I.
  repeat (split; [assumption |]).
  split.
  - apply (proj1 (@capacity_enforced_by_assertion debug_le five w Hok H5));
      by_computation.
  - apply (proj2 (@capacity_enforced_by_assertion debug_le four w Hok H4)).
    by_computation.
Defined.

(** The string "hello" into a 9-byte buffer, and back. *)
Lemma binary_string_fidelity_witness :
  let hello := [Byte.x68; Byte.x65; Byte.x6c; Byte.x6c; Byte.x6f] in
  let w := Writer.mk (repeat Byte.x00 9) 0 9 in
  writer_ok w /\ Mem.size hello <= max_value int32_t /\ fits w (Mem.size hello + 4) /\
  exists w',
    @Writer.writeBinaryString debug_le hello 5 w = Done tt w' /\
    Writer.position_ w' = 9 /\
    exists s,
      @Reader.readTextString debug_le (Reader.new (Writer.buffer_ w') 0 9) =
        Done s (Reader.mk (Writer.buffer_ w') 9 9) /\
      s = hello.
Proof.
  intros hello w.
  assert (Hok : writer_ok w) by (apply writer_ok_intro; by_computation).
  assert (Hn : Mem.size hello <= max_value int32_t) by by_computation.
  assert (Hf : fits w (Mem.size hello + 4)) by by_computation.
  repeat (split; [assumption |]).
  destruct (@binary_string_fidelity debug_le hello w Hok Hn Hf)
    as (w' & Hw & Hp & _ & _ & Hr).
  exists w'. split; [exact Hw |]. split; [exact Hp |].
  destruct (Hr (Reader.new (Writer.buffer_ w') 0 9) eq_refl eq_refl)
    as (s & Hs & _ & Heq); [by_computation |].
  exists s. split; [exact Hs | exact Heq].
Defined.

(** C3, the claim as stated: a payload of 2^31 bytes, with capacity for
    it, gets the length field -2^31, not its length. *)
Lemma length_field_wraps_at_2GiB :
  let N := 2 ^ 31 in
  let payload := repeat Byte.x00 (Z.to_nat N) in
  let w := Writer.mk (repeat Byte.x00 (Z.to_nat (N + 4))) 0 (N + 4) in
  Mem.size payload = N /\ writer_ok w /\ fits w (N + 4) /\
  exists w',
    @Writer.writeBinaryString debug_le payload N w = Done tt w' /\
    option_map (@from_bytes debug_le int32_t)
               (Mem.load (Writer.buffer_ w') 0 4) = Some (- N).
Proof.
  intros N payload w.
  assert (HN : N = 2 ^ 31) by reflexivity.
  assert (Hs : Mem.size payload = N).
  { unfold Mem.size, payload. rewrite repeat_length. apply Z2Nat.id. lia. }
  assert (Hok : writer_ok w).
  { apply writer_ok_intro; unfold w;
      cbn [Writer.position_ Writer.capacity_ Writer.buffer_].
    - lia.
    - lia.
    - unfold Mem.size. rewrite repeat_length, Z2Nat.id; lia. }
  assert (Hf : fits w (N + 4)).
  { unfold fits, w. cbn [Writer.position_ Writer.capacity_]. lia. }
  repeat (split; [assumption |]).
  destruct (@writeBinaryString_fits debug_le payload N w Hok ltac:(lia) Hf)
    as (w' & Hw & _ & _ & _ & Hfield & _).
  exists w'. split; [exact Hw |].
  unfold w in Hfield. cbn [Writer.position_] in Hfield. rewrite Hfield.
  reflexivity.
Qed.

(** C2, the claim as stated.  With assertions compiled out, five bytes
    written to a Writer of capacity 4 are stored and the position moves to
    5 when the storage extends further, and the copy runs off the storage
    when it does not.  In any build, a request whose sum with the position
    wraps around [size_t] passes the check. *)
Lemma capacity_overrun_not_refused :
  let five := WriteBytes [Byte.x01; Byte.x02; Byte.x03; Byte.x04; Byte.x05] 5 in
  (let w := Writer.mk (repeat Byte.xff 8) 0 4 in
   Writer.position_ w + requested five > Writer.capacity_ w /\
   @run_write release_le five w =
   Done tt (Writer.mk [Byte.x01; Byte.x02; Byte.x03; Byte.x04; Byte.x05;
                       Byte.xff; Byte.xff; Byte.xff] 5 4)) /\
  (let w := Writer.mk (repeat Byte.xff 4) 0 4 in
   Writer.position_ w + requested five > Writer.capacity_ w /\
   @run_write release_le five w = Undefined) /\
  (let w := Writer.mk (repeat Byte.xff 8) 1 8 in
   let op := ReserveBytes (2 ^ 64 - 1) in
   Writer.position_ w + requested op > Writer.capacity_ w /\
   @run_write debug_le op w = Done tt (Writer.mk (repeat Byte.xff 8) 0 8)).
Proof. vm_compute. repeat split. Qed.

(** A raw read of three bytes with two left, and a text read of a string
    that ends past the end: both stop at the assertion. *)
Lemma reader_end_checked_by_assertion_witness :
  let r := Reader.new [Byte.x02; Byte.x00; Byte.x00; Byte.x00; Byte.x41; Byte.x42] 0 2 in
  let bs := [Byte.x02; Byte.x00; Byte.x00; Byte.x00] in
  @NDEBUG debug_le = false /\
  in_storage r (Reader.current_ r) /\
  in_storage r (Reader.end_ r) /\
  0 <= 3 < address_space_half /\
  Reader.current_ r + 3 > Reader.end_ r /\
  Mem.load (Reader.mem r) (Reader.current_ r) 4 = Some bs /\
  0 <= @from_bytes debug_le int32_t bs /\
  Reader.current_ r + 4 + @from_bytes debug_le int32_t bs > Reader.end_ r /\
  @run_read debug_le (GetRawPointer 3) r = Abort (Reader.set_current r 3) /\
  @run_read debug_le ReadTextString r = Abort (Reader.set_current r 6).
Proof.
  intros r bs.
  assert (H0 : @NDEBUG debug_le = false) by reflexivity.
  assert (Hc : in_storage r (Reader.current_ r)) by by_computation.
  assert (He : in_storage r (Reader.end_ r)) by by_computation.
  assert (Hn : 0 <= 3 < address_space_half) by by_computation.
  assert (H1 : Reader.current_ r + 3 > Reader.end_ r) by reflexivity.
  assert (H2 : Mem.load (Reader.mem r) (Reader.current_ r) 4 = Some bs)
    by reflexivity.
  assert (H3 : 0 <= @from_bytes debug_le int32_t bs) by by_computation.
  assert (H4 : Reader.current_ r + 4 + @from_bytes debug_le int32_t bs
               > Reader.end_ r) by reflexivity.
  repeat (split; [assumption |]).
  destruct (@reader_end_checked_by_assertion debug_le r H0) as (_ & Hraw & Htext).
  split.
  - exact (proj1 (Hraw 3 Hc He Hn H1)).
  - exact (Htext bs H2 H3 H4).
Defined.

(** C4, the claim as stated.  With assertions on and two bytes left before
    the end, [readInt] returns and leaves the cursor two bytes past the
    end.  With assertions compiled out, the text read of a two-byte string
    that ends one byte past the end returns as well. *)
Lemma read_passes_end :
  (let r := Reader.new [Byte.x01; Byte.x01; Byte.x01; Byte.x01] 0 2 in
   Reader.current_ r <= Reader.end_ r /\
   fixed_width ReadInt = Some 4 /\
   Reader.current_ r + 4 > Reader.end_ r /\
   @run_read debug_le ReadInt r =
     Done (RInt 16843009)
          (Reader.mk [Byte.x01; Byte.x01; Byte.x01; Byte.x01] 4 2)) /\
  (let m := [Byte.x02; Byte.x00; Byte.x00; Byte.x00; Byte.x41; Byte.x42] in
   let r := Reader.new m 0 5 in
   Reader.current_ r <= Reader.end_ r /\
   @run_read release_le ReadTextString r =
     Done (RBytes [Byte.x41; Byte.x42]) (Reader.mk m 6 5)).
Proof. vm_compute. repeat split; discriminate. Qed.

(** A length prefix of -1, with and without assertions. *)
Lemma negative_length_fails_before_payload_witness :
  let bs := [Byte.xff; Byte.xff; Byte.xff; Byte.xff] in
  let r := Reader.new bs 0 4 in
  Mem.load (Reader.mem r) (Reader.current_ r) 4 = Some bs /\
  @from_bytes debug_le int32_t bs < 0 /\
  @from_bytes release_le int32_t bs < 0 /\
  @Reader.readTextString debug_le r = Abort (Reader.mk bs 4 4) /\
  @Reader.readTextString release_le r = Throws length_error.
Proof.
  intros bs r.
  assert (H1 : Mem.load (Reader.mem r) (Reader.current_ r) 4 = Some bs)
    by reflexivity.
  assert (H2 : @from_bytes debug_le int32_t bs < 0) by reflexivity.
  assert (H3 : @from_bytes release_le int32_t bs < 0) by reflexivity.
  repeat (split; [assumption |]).
  split.
  - exact (@negative_length_fails_before_payload debug_le r bs H1 H2).
  - exact (@negative_length_fails_before_payload release_le r bs H1 H3).
Defined.

(** C5, the claim as stated: a text read whose prefix is -1 reports no
    [InvalidLength] error to its caller.  With assertions the method only
    asserts: the process is aborted there, the cursor already moved past
    the prefix.  With assertions compiled out the method checks nothing,
    and what leaves the call is the [std::length_error] of the string
    constructor. *)
Lemma negative_length_is_only_asserted :
  let bs := [Byte.xff; Byte.xff; Byte.xff; Byte.xff] in
  let r := Reader.new bs 0 4 in
  @from_bytes debug_le int32_t bs = -1 /\
  @Reader.readTextString debug_le r = Abort (Reader.mk bs 4 4) /\
  @assert_ release_le Reader.t (-1 >=? 0) r = Done tt r /\
  @Reader.readTextString release_le r = Throws length_error.
Proof. vm_compute. repeat split. Qed.

(** A rewind by four bytes, two bytes into a buffer that starts at
    offset 8 of its storage. *)
Lemma unread_is_unchecked_witness :
  let r := Reader.mk (repeat Byte.x00 16) 10 16 in
  in_storage r (Reader.current_ r) /\
  0 <= 4 <= Reader.current_ r + first_page /\
  Reader.current_ r - 4 < 8 /\
  exists r',
    Reader.unread 4 r = Done tt r' /\ Reader.current_ r' < 8.
Proof.
  intros r.
  assert (Hc : in_storage r (Reader.current_ r)) by by_computation.
  assert (Hb : 0 <= 4 <= Reader.current_ r + first_page) by by_computation.
  assert (H : Reader.current_ r - 4 < 8) by reflexivity.
  repeat (split; [assumption |]).
  destruct (proj2 (unread_is_unchecked r 4 Hc Hb) 8 H) as (r' & Hrun & Hlt & _).
  exists r'. split; [exact Hrun | exact Hlt].
Defined.

(** C6, the claim as stated: a rewind by one byte from the start of the
    buffer is carried out (the method has no assertion, so the build plays
    no part) and leaves the cursor before the storage. *)
Lemma unread_moves_before_start :
  let r := Reader.new [Byte.x2a; Byte.x00; Byte.x00; Byte.x00] 0 4 in
  Reader.current_ r - 1 < 0 /\
  Reader.unread 1 r =
    Done tt (Reader.mk [Byte.x2a; Byte.x00; Byte.x00; Byte.x00] (-1) 4).
Proof. vm_compute. split; reflexivity. Qed.

(** The tag 300 stops at the assertion; the tag -3 is written as [0xfd]. *)
Lemma enum_tag_checked_by_assertion_witness :
  let w := Writer.mk (repeat Byte.x00 2) 0 2 in
  @NDEBUG debug_le = false /\ ~ in_range int8_t 300 /\
  in_range int8_t (-3) /\ writer_ok w /\ fits w 1 /\
  @Writer.writeEnumInSingleByte debug_le 300 w = Abort w /\
  exists w',
    @Writer.writeEnumInSingleByte debug_le (-3) w = Done tt w' /\
    Mem.load (Writer.buffer_ w') 0 1 = Some [Byte.xfd].
Proof.
  intros w.
  assert (H1 : @NDEBUG debug_le = false) by reflexivity.
  assert (H2 : ~ in_range int8_t 300) by (vm_compute; intuition congruence).
  assert (H3 : in_range int8_t (-3)) by by_computation.
  assert (Hok : writer_ok w) by (apply writer_ok_intro; by_computation).
  assert (Hf : fits w 1) by by_computation.
  repeat (split; [assumption |]).
  split.
  - exact (proj1 (@enum_tag_checked_by_assertion debug_le 300 w) H1 H2).
  - destruct (proj2 (@enum_tag_checked_by_assertion debug_le (-3) w) H3 Hok Hf)
      as (w' & Hw & _ & Hl & _).
    exists w'. split; [exact Hw | exact Hl].
Defined.

(** C7, the claim as stated: with assertions compiled out, the tag 300 is
    cut down to the byte [0x2c] (44) and written. *)
Lemma enum_tag_truncated :
  let w := Writer.mk (repeat Byte.x00 2) 0 2 in
  ~ in_range int8_t 300 /\
  @Writer.writeEnumInSingleByte release_le 300 w =
    Done tt (Writer.mk [Byte.x2c; Byte.x00] 1 2).
Proof. vm_compute. split; [intuition congruence | reflexivity]. Qed.

(** Back-patching a length of 8 in front of four payload bytes. *)
Lemma back_patch_correct_witness :
  let storage := repeat Byte.xff 8 in
  let downstream := [Byte.x01; Byte.x02; Byte.x03; Byte.x04] in
  8 <= Mem.size storage /\ Mem.size downstream = 4 /\
  exists w0 w',
    @Writer.new debug_le storage 8 = Done tt w0 /\
    @back_patch debug_le downstream 8 w0 = Done (0, 4, 8, 8) w' /\
    Mem.load (Writer.buffer_ w') 0 4 =
      Some [Byte.x08; Byte.x00; Byte.x00; Byte.x00] /\
    Mem.load (Writer.buffer_ w') 4 4 = Some downstream.
Proof.
  intros storage downstream.
  assert (H1 : 8 <= Mem.size storage) by by_computation.
  assert (H2 : Mem.size downstream = 4) by reflexivity.
  repeat (split; [assumption |]).
  destruct (@back_patch_correct debug_le storage downstream 8 H1 H2)
    as (w0 & w' & Hnew & Hrun & Hl0 & Hl4 & _).
  exists w0, w'. repeat (split; [assumption |]). exact Hl4.
Defined.

(** Writing an integer at offset 2 of an 8-byte buffer leaves the bytes at
    offsets 0, 1, 6 and 7 alone. *)
Lemma serializer_frame_witness :
  let w := Writer.mk (repeat Byte.xff 8) 2 8 in
  let w' := Writer.mk [Byte.xff; Byte.xff; Byte.x2a; Byte.x00; Byte.x00;
                       Byte.x00; Byte.xff; Byte.xff] 6 8 in
  @run_write debug_le (WriteInt 42) w = Done tt w' /\
  Mem.size (Writer.buffer_ w') = Mem.size (Writer.buffer_ w) /\
  forall i, i < 2 \/ 2 + 4 <= i ->
            Mem.byte_at (Writer.buffer_ w') i = Mem.byte_at (Writer.buffer_ w) i.
Proof.
  intros w w'.
  assert (H : @run_write debug_le (WriteInt 42) w = Done tt w') by reflexivity.
  split; [exact H |].
  exact (proj1 (@serializer_frame debug_le) (WriteInt 42) w w' H).
Defined.

(** * Further properties of the two classes *)

(** ** More on lists as memory *)

Ltac split_ltb :=
  repeat match goal with
         | |- context [(?x <? ?y)%nat] => destruct (Nat.ltb_spec x y)
         end.

Lemma splice_nil (m : Mem.storage) (off : Z) : Mem.splice m off [] = m.
Proof.
  unfold Mem.splice. simpl. rewrite Nat.add_0_r. apply firstn_skipn.
Qed.

(** Two stores next to each other are one store of the concatenation. *)
Lemma splice_app (m : Mem.storage) (off : Z) (a b : list byte) :
  0 <= off ->
  off + Z.of_nat (length a) + Z.of_nat (length b) <= Mem.size m ->
  Mem.splice (Mem.splice m off a) (off + Z.of_nat (length a)) b =
  Mem.splice m off (a ++ b).
Proof.
  intros H0 Hb.
  assert (Hs : Mem.size (Mem.splice m off a) = Mem.size m)
    by (unfold Mem.size; rewrite splice_length; [reflexivity | lia | lia]).
  apply nth_error_ext. intros i.
  rewrite (nth_error_splice (Mem.splice m off a)) by lia.
  rewrite !(nth_error_splice m) by (rewrite ?length_app; lia).
  rewrite length_app.
  split_ltb; try lia; try reflexivity.
  - rewrite nth_error_app1 by lia. reflexivity.
  - rewrite nth_error_app2 by lia. f_equal. lia.
Qed.

(** Two stores into disjoint ranges can be swapped. *)
Lemma splice_commute (m : Mem.storage) (o1 o2 : Z) (a b : list byte) :
  0 <= o1 -> o1 + Z.of_nat (length a) <= o2 ->
  o2 + Z.of_nat (length b) <= Mem.size m ->
  Mem.splice (Mem.splice m o2 b) o1 a = Mem.splice (Mem.splice m o1 a) o2 b.
Proof.
  intros H0 H1 H2.
  assert (Hs1 : Mem.size (Mem.splice m o1 a) = Mem.size m)
    by (unfold Mem.size; rewrite splice_length; [reflexivity | lia | lia]).
  assert (Hs2 : Mem.size (Mem.splice m o2 b) = Mem.size m)
    by (unfold Mem.size; rewrite splice_length; [reflexivity | lia | lia]).
  apply nth_error_ext. intros i.
  rewrite (nth_error_splice (Mem.splice m o2 b)) by lia.
  rewrite (nth_error_splice (Mem.splice m o1 a)) by lia.
  rewrite !(nth_error_splice m) by lia.
  split_ltb; try lia; reflexivity.
Qed.

(** A range read in one piece or in two. *)
Lemma slice_add (m : Mem.storage) (o a b : Z) :
  0 <= o -> 0 <= a -> 0 <= b -> o + a + b <= Mem.size m ->
  Mem.slice m o (a + b) = Mem.slice m o a ++ Mem.slice m (o + a) b.
Proof.
  intros Ho Ha Hb Hs.
  assert (Hl : length (Mem.slice m o a) = Z.to_nat a)
    by (apply slice_length; lia).
  apply nth_error_ext. intros i.
  rewrite nth_error_slice.
  destruct (Nat.ltb_spec i (Z.to_nat a)) as [Hi | Hi].
  - rewrite nth_error_app1 by lia. rewrite nth_error_slice.
    split_ltb; try lia; reflexivity.
  - rewrite nth_error_app2 by lia. rewrite nth_error_slice, Hl.
    split_ltb; try lia; [f_equal; lia | reflexivity].
Qed.

Lemma load_add (m : Mem.storage) (o a b : Z) (bs : list byte) :
  0 <= a -> 0 <= b ->
  Mem.load m o (a + b) = Some bs ->
  Mem.load m o a = Some (Mem.slice m o a) /\
  Mem.load m (o + a) b = Some (Mem.slice m (o + a) b) /\
  bs = Mem.slice m o a ++ Mem.slice m (o + a) b.
Proof.
  intros Ha Hb H. apply load_Some in H. destruct H as [(H0 & H1 & H2) ->].
  split; [apply load_Some; split; [lia | reflexivity] |].
  split; [apply load_Some; split; [lia | reflexivity] |].
  apply slice_add; lia.
Qed.

Lemma app_inj_length {A} (a a' b b' : list A) :
  length a = length a' -> a ++ b = a' ++ b' -> a = a' /\ b = b'.
Proof.
  revert a'. induction a as [| x a IH]; intros [| x' a'] Hl H;
    try discriminate Hl.
  - split; [reflexivity | exact H].
  - simpl in H. injection H as -> H. injection Hl as Hl.
    destruct (IH a' Hl H) as [-> ->]. split; reflexivity.
Qed.

(** The load of a concatenation is the load of its two parts. *)
Lemma load_app (m : Mem.storage) (o : Z) (a b : list byte) :
  Mem.load m o (Z.of_nat (length (a ++ b))) = Some (a ++ b) ->
  Mem.load m o (Z.of_nat (length a)) = Some a /\
  Mem.load m (o + Z.of_nat (length a)) (Z.of_nat (length b)) = Some b.
Proof.
  rewrite length_app, Nat2Z.inj_add. intros H.
  destruct (load_add m o (Z.of_nat (length a)) (Z.of_nat (length b)) (a ++ b)
              (Nat2Z.is_nonneg _) (Nat2Z.is_nonneg _) H) as (Ha & Hb & Heq).
  apply load_Some in H. destruct H as [(H0 & H1 & H2) _].
  assert (Hl : length a = length (Mem.slice m o (Z.of_nat (length a))))
    by (rewrite slice_length by lia; lia).
  destruct (app_inj_length _ _ _ _ Hl Heq) as [Ea Eb].
  rewrite Ha, Hb. split; congruence.
Qed.

(** ** Fixed-width reads *)

Section FixedWidth.
Context {B : Build}.

(** Every fixed-width read is one load of its width at the cursor,
    followed by a conversion of the loaded bytes. *)
Lemma fixed_width_run (op : read_op) (n : Z) :
  fixed_width op = Some n ->
  exists f : list byte -> read_result,
    forall r,
      run_read op r =
      match Mem.load (Reader.mem r) (Reader.current_ r) n with
      | Some bs => Done (f bs) (Reader.set_current r (Reader.current_ r + n))
      | None => Undefined
      end.
Proof.
  intros Hfw.
  destruct op; inversion Hfw; subst n; eexists; intros r; cbn [run_read];
    unfold fmap, Reader.readChar, Reader.readByte, Reader.readShort,
      Reader.readInt, Reader.readBool, Reader.readEnumInSingleByte,
      Reader.readLong, Reader.readFloat, Reader.readDouble, Reader.readByte,
      bind;
    rewrite readPrimitive_run;
    cbn [sizeof Z.of_nat Pos.of_succ_nat Pos.succ];
    (destruct (Mem.load (Reader.mem r) (Reader.current_ r) _) as [bs |];
     [| reflexivity]);
    unfold ret;
    match goal with
    | |- Done (?c ?x) _ = Done (?f bs) _ =>
        instantiate (1 := fun bs' => _); cbv beta; reflexivity
    end.
Qed.

End FixedWidth.

(** X1.  A fixed-width read looks at the storage only, never at [end_]:
    it returns, with the cursor advanced by exactly its width, when the
    storage holds that many bytes at the cursor, and has no defined
    behaviour otherwise; it never stops at an assertion, and the value it
    returns does not depend on where the Reader's end is. *)
Theorem fixed_width_read_ignores_end {B : Build}
        (op : read_op) (n : Z) (r : Reader.t) :
  fixed_width op = Some n ->
  (Mem.in_bounds (Reader.mem r) (Reader.current_ r) n = true ->
   exists v,
     forall e,
       run_read op (Reader.mk (Reader.mem r) (Reader.current_ r) e) =
       Done v (Reader.mk (Reader.mem r) (Reader.current_ r + n) e)) /\
  (Mem.in_bounds (Reader.mem r) (Reader.current_ r) n = false ->
   run_read op r = Undefined).
Proof.
  intros Hfw. destruct (fixed_width_run op n Hfw) as [f Hrun]. split.
  - intros Hb. exists (f (Mem.slice (Reader.mem r) (Reader.current_ r) n)).
    intros e. rewrite Hrun. cbn [Reader.mem Reader.current_].
    unfold Mem.load. rewrite Hb. reflexivity.
  - intros Hb. rewrite Hrun. unfold Mem.load. rewrite Hb. reflexivity.
Qed.

(** X2.  Rewind and re-read.  After a fixed-width read has returned,
    [unread] by its width puts the Reader back exactly as it was, and the
    same read returns the same value and leaves the same state again. *)
Theorem reread_after_unread {B : Build}
        (op : read_op) (n : Z) (r r' : Reader.t) (v : read_result) :
  fixed_width op = Some n ->
  run_read op r = Done v r' ->
  Reader.unread n r' = Done tt r /\
  (Reader.unread n ;; run_read op) r' = Done v r'.
Proof.
  intros Hfw Hrun. destruct (fixed_width_run op n Hfw) as [f Hf].
  assert (Hback : Reader.unread n r' = Done tt r).
  { rewrite Hf in Hrun.
    destruct (Mem.load _ _ _); [| discriminate].
    injection Hrun as _ <-. rewrite unread_run.
    destruct r as [m c e]. unfold Reader.set_current.
    cbn [Reader.mem Reader.current_ Reader.end_].
    do 2 f_equal. lia. }
  split; [exact Hback |].
  unfold bind. rewrite Hback. exact Hrun.
Qed.

(** ** The Writer's position and capacity *)

Section WriterInvariant.
Context {B : Build}.

Lemma size_add_comm (a b : Z) : size_add a b = size_add b a.
Proof. unfold size_add. rewrite Z.add_comm. reflexivity. Qed.

(** A write shaped as "check [n], then store, then advance by [n]". *)
Lemma guarded_result (g : bool) (o : option Mem.storage) (w w' : Writer.t) (p : Z) :
  (if g
   then match o with
        | Some b => Done tt (Writer.mk b p (Writer.capacity_ w))
        | None => Undefined
        end
   else Abort w) = Done tt w' ->
  g = true /\ Writer.position_ w' = p /\ Writer.capacity_ w' = Writer.capacity_ w.
Proof.
  destruct g; [| discriminate]. destruct o; [| discriminate].
  intros [= <-]. repeat split.
Qed.

Lemma guard_true_debug (c m : Z) :
  NDEBUG = false -> NDEBUG || (c >=? m) = true -> m <= c.
Proof. intros ->. simpl. apply Z.geb_le. Qed.

Lemma writePrimitive_within (T : ctype) (v : Z) (w w' : Writer.t) :
  NDEBUG = false ->
  Writer.writePrimitive T v w = Done tt w' ->
  Writer.position_ w' <= Writer.capacity_ w'.
Proof.
  intros Hd. rewrite writePrimitive_run. intros H.
  apply guarded_result in H. destruct H as (Hg & -> & ->).
  apply (guard_true_debug _ _ Hd Hg).
Qed.

Lemma write_within (op : write_op) (w w' : Writer.t) :
  NDEBUG = false ->
  run_write op w = Done tt w' ->
  Writer.position_ w' <= Writer.capacity_ w'.
Proof.
  intros Hd.
  destruct op; cbn [run_write]; try (apply writePrimitive_within; exact Hd).
  - (* writeEnumInSingleByte *)
    rewrite writeEnumInSingleByte_run.
    destruct (NDEBUG || _); [| discriminate].
    apply writePrimitive_within. exact Hd.
  - (* writeBinaryString *)
    rewrite writeBinaryString_run.
    destruct (NDEBUG || _) eqn:Hg; [| discriminate].
    destruct (Mem.store _ _ _); [| discriminate].
    destruct (Mem.load _ _ _); [| discriminate].
    destruct (Mem.store _ _ _); [| discriminate].
    intros [= <-]. cbn [Writer.position_ Writer.capacity_].
    rewrite (size_add_comm 4 length).
    apply (guard_true_debug _ _ Hd Hg).
  - (* writeBytes *)
    rewrite writeBytes_run.
    destruct (NDEBUG || _) eqn:Hg; [| discriminate].
    destruct (Mem.load _ _ _); [| discriminate].
    destruct (Mem.store _ _ _); [| discriminate].
    intros [= <-]. apply (guard_true_debug _ _ Hd Hg).
  - (* writeZeros *)
    rewrite writeZeros_run. intros H.
    apply guarded_result in H. destruct H as (Hg & -> & ->).
    apply (guard_true_debug _ _ Hd Hg).
  - (* reserveBytes *)
    unfold bind. rewrite reserveBytes_run.
    destruct (NDEBUG || _) eqn:Hg; [| discriminate].
    intros [= <-]. apply (guard_true_debug _ _ Hd Hg).
Qed.

Lemma writePrimitive_capacity (T : ctype) (v : Z) (w w' : Writer.t) :
  final (Writer.writePrimitive T v w) = Some w' ->
  Writer.capacity_ w' = Writer.capacity_ w.
Proof.
  rewrite writePrimitive_run.
  destruct (NDEBUG || _); [| intros [= <-]; reflexivity].
  destruct (Mem.store _ _ _); [| discriminate].
  intros [= <-]. reflexivity.
Qed.

Lemma write_capacity (op : write_op) (w w' : Writer.t) :
  final (run_write op w) = Some w' ->
  Writer.capacity_ w' = Writer.capacity_ w.
Proof.
  destruct op; cbn [run_write]; try apply writePrimitive_capacity.
  - rewrite writeEnumInSingleByte_run.
    destruct (NDEBUG || _); [| intros [= <-]; reflexivity].
    apply writePrimitive_capacity.
  - rewrite writeBinaryString_run.
    destruct (NDEBUG || _); [| intros [= <-]; reflexivity].
    destruct (Mem.store _ _ _); [| discriminate].
    destruct (Mem.load _ _ _); [| discriminate].
    destruct (Mem.store _ _ _); [| discriminate].
    intros [= <-]. reflexivity.
  - rewrite writeBytes_run.
    destruct (NDEBUG || _); [| intros [= <-]; reflexivity].
    destruct (Mem.load _ _ _); [| discriminate].
    destruct (Mem.store _ _ _); [| discriminate].
    intros [= <-]. reflexivity.
  - rewrite writeZeros_run.
    destruct (NDEBUG || _); [| intros [= <-]; reflexivity].
    destruct (Mem.store _ _ _); [| discriminate].
    intros [= <-]. reflexivity.
  - unfold bind. rewrite reserveBytes_run.
    destruct (NDEBUG || _); intros [= <-]; reflexivity.
Qed.

End WriterInvariant.

(** X3.  The capacity given at construction is never changed by a write,
    whatever its outcome.  In a build with assertions, every write that
    returns leaves [position_ <= capacity_], whatever the position was
    before and whatever length was asked for: the position a write stores
    is the very sum its assertion has compared with the capacity. *)
Theorem writes_keep_position_within_capacity {B : Build}
        (op : write_op) (w : Writer.t) :
  (forall w', final (run_write op w) = Some w' ->
              Writer.capacity_ w' = Writer.capacity_ w) /\
  (NDEBUG = false ->
   forall w', run_write op w = Done tt w' ->
              Writer.position_ w' <= Writer.capacity_ w').
Proof.
  split.
  - intros w'. apply write_capacity.
  - intros Hd w'. apply write_within. exact Hd.
Qed.

(** ** Zero-length operations *)

Section ZeroLength.
Context {B : Build}.

Lemma writer_eta (w : Writer.t) :
  Writer.mk (Writer.buffer_ w) (Writer.position_ w) (Writer.capacity_ w) = w.
Proof. destruct w. reflexivity. Qed.

Lemma reader_eta (r : Reader.t) :
  Reader.mk (Reader.mem r) (Reader.current_ r) (Reader.end_ r) = r.
Proof. destruct r. reflexivity. Qed.

Lemma store_nothing (m : Mem.storage) (off : Z) :
  0 <= off <= Mem.size m -> Mem.store m off [] = Some m.
Proof.
  intros H. apply store_Some. simpl. split; [lia |].
  symmetry. apply splice_nil.
Qed.

Lemma load_nothing (m : Mem.storage) (off : Z) :
  0 <= off <= Mem.size m -> Mem.load m off 0 = Some [].
Proof.
  intros H. apply load_Some. split; [lia | reflexivity].
Qed.

Lemma zero_length_writes (w : Writer.t) (value : list byte) :
  writer_ok w -> fits w 0 ->
  Writer.writeBytes value 0 w = Done tt w /\
  Writer.writeZeros 0 w = Done tt w /\
  Writer.reserveBytes 0 w = Done (Writer.position_ w) w.
Proof.
  intros Hok Hf. pose proof (writer_ok_bounds w Hok) as (Hp & Hc & Hb).
  unfold fits in Hf.
  assert (Hg : NDEBUG || (Writer.capacity_ w >=? size_add (Writer.position_ w) 0)
               = true) by (apply guard_fits; lia).
  assert (Hz : size_add (Writer.position_ w) 0 = Writer.position_ w)
    by (rewrite size_add_nowrap; lia).
  assert (Hst : Mem.store (Writer.buffer_ w) (Writer.position_ w) [] =
                Some (Writer.buffer_ w)) by (apply store_nothing; lia).
  repeat split.
  - rewrite writeBytes_run, Hg, load_nothing by (unfold Mem.size; lia).
    rewrite Hst, Hz, writer_eta. reflexivity.
  - rewrite writeZeros_run, Hg. simpl repeat. rewrite Hst, Hz, writer_eta.
    reflexivity.
  - rewrite reserveBytes_run, Hg, Hz, writer_eta. reflexivity.
Qed.

Lemma zero_length_past_capacity (w : Writer.t) (value : list byte) :
  NDEBUG = false ->
  in_range size_t (Writer.position_ w) ->
  Writer.capacity_ w < Writer.position_ w ->
  Writer.writeBytes value 0 w = Abort w /\
  Writer.writeZeros 0 w = Abort w /\
  Writer.reserveBytes 0 w = Abort w.
Proof.
  intros Hd Hp Hlt.
  assert (Hz : size_add (Writer.position_ w) 0 = Writer.position_ w).
  { unfold size_add. rewrite Z.add_0_r. apply cast_id, Hp. }
  assert (Hg : NDEBUG || (Writer.capacity_ w >=? size_add (Writer.position_ w) 0)
               = false).
  { rewrite Hd, Hz. simpl. rewrite Z.geb_leb. apply Z.leb_gt. exact Hlt. }
  rewrite writeBytes_run, writeZeros_run, reserveBytes_run, Hg.
  repeat split.
Qed.

Lemma zero_length_reads (r : Reader.t) :
  0 <= Reader.current_ r <= Mem.size (Reader.mem r) ->
  Reader.current_ r <= Reader.end_ r ->
  Reader.readBytes 0 r = Done [] r /\
  Reader.getRawPointer 0 r = Done (Reader.current_ r) r.
Proof.
  intros Hb He.
  assert (Hr : Reader.set_current r (Reader.current_ r + 0) = r).
  { unfold Reader.set_current. rewrite Z.add_0_r. apply reader_eta. }
  assert (Hg : NDEBUG || (Reader.current_ r + 0 <=? Reader.end_ r) = true).
  { apply orb_true_iff. right. apply Z.leb_le. lia. }
  rewrite readBytes_run, getRawPointer_run, Hg, Hr, load_nothing by lia.
  split; reflexivity.
Qed.

End ZeroLength.

(** X4.  Zero-length operations.  With the position within the capacity,
    [writeBytes], [writeZeros] and [reserveBytes] of length 0 return and
    leave the Writer exactly as it was; with the position beyond the
    capacity (as the position setter allows), they stop at the assertion of
    [assureExpand] in a build with assertions, although they would store
    nothing.  [readBytes] and [getRawPointer] of length 0, with the cursor
    inside the storage and not past the end, return and leave the Reader
    exactly as it was. *)
Theorem zero_length_operations {B : Build} :
  (forall w value,
      writer_ok w -> fits w 0 ->
      Writer.writeBytes value 0 w = Done tt w /\
      Writer.writeZeros 0 w = Done tt w /\
      Writer.reserveBytes 0 w = Done (Writer.position_ w) w) /\
  (forall w value,
      NDEBUG = false ->
      in_range size_t (Writer.position_ w) ->
      Writer.capacity_ w < Writer.position_ w ->
      Writer.writeBytes value 0 w = Abort w /\
      Writer.writeZeros 0 w = Abort w /\
      Writer.reserveBytes 0 w = Abort w) /\
  (forall r,
      0 <= Reader.current_ r <= Mem.size (Reader.mem r) ->
      Reader.current_ r <= Reader.end_ r ->
      Reader.readBytes 0 r = Done [] r /\
      Reader.getRawPointer 0 r = Done (Reader.current_ r) r).
Proof.
  split; [| split].
  - intros w value. apply zero_length_writes.
  - intros w value. apply zero_length_past_capacity.
  - apply zero_length_reads.
Qed.

(** ** Booleans on the wire *)

Lemma native_singleton {B : Build} (b : byte) : native [b] = [b].
Proof. unfold native. destruct big_endian; reflexivity. Qed.

Lemma int8_zero_byte {B : Build} (b : byte) :
  (from_bytes int8_t [b] =? 0) = Byte.eqb b Byte.x00.
Proof.
  unfold from_bytes. rewrite native_singleton.
  destruct b; reflexivity.
Qed.

(** X5.  Booleans on the wire.  [writeBool] stores exactly one byte, 1
    for true and 0 for false.  [readBool] accepts any byte: it returns
    false for the byte 0 and true for each of the 255 others, and advances
    by one. *)
Theorem bool_wire_format {B : Build} :
  (forall v w,
      writer_ok w -> fits w 1 ->
      exists w',
        Writer.writeBool v w = Done tt w' /\
        Writer.position_ w' = Writer.position_ w + 1 /\
        Mem.load (Writer.buffer_ w') (Writer.position_ w) 1 =
          Some [if v then Byte.x01 else Byte.x00]) /\
  (forall r b,
      Mem.load (Reader.mem r) (Reader.current_ r) 1 = Some [b] ->
      Reader.readBool r =
        Done (negb (Byte.eqb b Byte.x00))
             (Reader.mk (Reader.mem r) (Reader.current_ r + 1) (Reader.end_ r))).
Proof.
  split.
  - intros v w Hok Hf.
    destruct (writePrimitive_fits int8_t (if v then 1 else 0) w Hok Hf)
      as (bf & Hst & Hw).
    eexists. split; [exact Hw |]. split; [reflexivity |].
    cbn [Writer.buffer_].
    apply load_store_same in Hst. rewrite to_bytes_int8 in Hst.
    destruct v; exact Hst.
  - intros r b Hl. unfold Reader.readBool, Reader.readByte, bind.
    rewrite readPrimitive_run. change (Z.of_nat (sizeof int8_t)) with 1.
    rewrite Hl. unfold ret. rewrite int8_zero_byte. reflexivity.
Qed.

(** ** Raw reads and length-prefixed reads *)

Section RawReads.
Context {B : Build}.

Lemma readBytes_Done (n : Z) (r r' : Reader.t) (bs : list byte) :
  Reader.readBytes n r = Done bs r' ->
  Mem.load (Reader.mem r) (Reader.current_ r) n = Some bs /\
  r' = Reader.set_current r (Reader.current_ r + n) /\
  NDEBUG || (Reader.current_ r + n <=? Reader.end_ r) = true.
Proof.
  rewrite readBytes_run.
  destruct (NDEBUG || _); [| discriminate].
  destruct (Mem.load _ _ _); [| discriminate].
  intros [= <- <-]. repeat split.
Qed.

Lemma readBytes_split (a b : Z) (r r' : Reader.t) (bs : list byte) :
  0 <= a -> 0 <= b ->
  Reader.readBytes (a + b) r = Done bs r' ->
  (x <- Reader.readBytes a ;; y <- Reader.readBytes b ;; ret (x ++ y)) r =
  Done bs r'.
Proof.
  intros Ha Hb H. apply readBytes_Done in H. destruct H as (Hl & -> & Hg).
  destruct (load_add _ _ _ _ _ Ha Hb Hl) as (Hla & Hlb & ->).
  assert (Hga : NDEBUG || (Reader.current_ r + a <=? Reader.end_ r) = true).
  { apply orb_true_iff in Hg. apply orb_true_iff.
    destruct Hg as [Hg | Hg]; [left; exact Hg | right].
    apply Z.leb_le in Hg. apply Z.leb_le. lia. }
  unfold bind. rewrite readBytes_run, Hga, Hla.
  rewrite readBytes_run.
  cbn [Reader.mem Reader.current_ Reader.end_ Reader.set_current].
  rewrite Z.add_assoc in Hg. rewrite Hg, Hlb. unfold ret.
  rewrite Z.add_assoc. reflexivity.
Qed.

Lemma readTextString_Done (r r' : Reader.t) (s : list byte) :
  Reader.readTextString r = Done s r' ->
  exists bs,
    Mem.load (Reader.mem r) (Reader.current_ r) 4 = Some bs /\
    let n := cast size_t (from_bytes int32_t bs) in
    Mem.load (Reader.mem r) (Reader.current_ r + 4) n = Some s /\
    r' = Reader.set_current r (Reader.current_ r + 4 + n) /\
    (NDEBUG = false ->
     0 <= from_bytes int32_t bs /\ n = from_bytes int32_t bs /\
     Reader.current_ r + 4 + n <= Reader.end_ r).
Proof.
  rewrite readTextString_run.
  destruct (Mem.load _ _ 4) as [bs |]; [| discriminate]. cbv zeta.
  destruct (NDEBUG || (_ >=? 0)) eqn:G1; [| discriminate].
  destruct (NDEBUG || (_ <=? _)) eqn:G2; [| discriminate].
  destruct (_ >? string_max_size); [discriminate |].
  destruct (Mem.load _ _ _) as [s' |] eqn:Hl; [| discriminate].
  intros [= <- <-]. exists bs. split; [reflexivity |].
  split; [exact Hl |]. split; [reflexivity |].
  intros Hd. rewrite Hd in G1, G2. simpl in G1, G2.
  apply Z.geb_le in G1. apply Z.leb_le in G2.
  assert (Hc : cast size_t (from_bytes int32_t bs) = from_bytes int32_t bs).
  { apply cast_id.
    pose proof (cast_in_range int32_t (le_combine (native bs))) as Hr.
    fold (from_bytes int32_t bs) in Hr.
    unfold in_range, min_value, max_value in *.
    simpl is_signed in *. cbv iota in *.
    change (bits size_t) with 64. change (bits int32_t) with 32 in Hr. lia. }
  rewrite Hc in *. repeat split; assumption.
Qed.

End RawReads.

(** X6.  A raw read can be taken in pieces.  If [readBytes] of [a + b]
    bytes returns, then [readBytes] of [a] bytes followed by [readBytes] of
    [b] bytes returns too, with the same bytes in the same order and the
    same final state. *)
Theorem readBytes_in_two_pieces {B : Build}
        (a b : Z) (r r' : Reader.t) (bs : list byte) :
  0 <= a -> 0 <= b ->
  Reader.readBytes (a + b) r = Done bs r' ->
  (x <- Reader.readBytes a ;; y <- Reader.readBytes b ;; ret (x ++ y)) r =
  Done bs r'.
Proof. intros Ha Hb H. apply (readBytes_split a b r r' bs Ha Hb H). Qed.

(** X7.  What a returned [readTextString] has done.  The 4 bytes at the
    cursor were in the storage; the string returned is the run of bytes
    right after them whose length is their value (converted to [size_t]);
    the cursor has moved past prefix and string.  In a build with
    assertions the prefix was moreover not negative, the string has exactly
    that many bytes, and the cursor is not past the end. *)
Theorem readTextString_returns_prefixed_bytes {B : Build}
        (r r' : Reader.t) (s : list byte) :
  Reader.readTextString r = Done s r' ->
  exists bs,
    Mem.load (Reader.mem r) (Reader.current_ r) 4 = Some bs /\
    Mem.load (Reader.mem r) (Reader.current_ r + 4)
             (cast size_t (from_bytes int32_t bs)) = Some s /\
    Mem.size s = cast size_t (from_bytes int32_t bs) /\
    Reader.current_ r' = Reader.current_ r + 4 + Mem.size s /\
    Reader.end_ r' = Reader.end_ r /\
    (NDEBUG = false ->
     0 <= from_bytes int32_t bs /\
     Mem.size s = from_bytes int32_t bs /\
     Reader.current_ r' <= Reader.end_ r').
Proof.
  intros H. destruct (readTextString_Done r r' s H) as (bs & Hp & Hl & -> & Hd).
  cbv zeta in *. exists bs.
  destruct (load_length _ _ _ _ Hl) as [_ Hlen]. fold (Mem.size s) in Hlen.
  split; [exact Hp |]. split; [exact Hl |]. split; [exact Hlen |].
  cbn [Reader.current_ Reader.end_ Reader.set_current].
  split; [rewrite Hlen; reflexivity |]. split; [reflexivity |].
  intros Hdb. destruct (Hd Hdb) as (H0 & Hc & He).
  split; [exact H0 |]. split; [congruence | exact He].
Qed.

(** X8.  A length-prefixed string can be read in two steps.  When the 4
    bytes at the cursor hold a length that is not negative,
    [readTextString] does exactly what [readInt] followed by [readBytes]
    of the length read does: same outcome, same bytes, same final state,
    in every build. *)
Theorem readTextString_is_readInt_then_readBytes {B : Build}
        (r : Reader.t) (bs : list byte) :
  Mem.load (Reader.mem r) (Reader.current_ r) 4 = Some bs ->
  0 <= from_bytes int32_t bs ->
  Reader.readTextString r = (n <- Reader.readInt ;; Reader.readBytes n) r.
Proof.
  intros Hl H0.
  assert (Hc : cast size_t (from_bytes int32_t bs) = from_bytes int32_t bs).
  { apply cast_id.
    pose proof (cast_in_range int32_t (le_combine (native bs))) as Hr.
    fold (from_bytes int32_t bs) in Hr.
    unfold in_range, min_value, max_value in *.
    simpl is_signed in *. cbv iota in *.
    change (bits size_t) with 64. change (bits int32_t) with 32 in Hr. lia. }
  assert (Hm : (from_bytes int32_t bs >? string_max_size) = false).
  { apply prefix_below_string_max_size. split; [exact H0 |].
    apply (cast_in_range int32_t (le_combine (native bs))). }
  rewrite readTextString_run, Hl. cbv zeta. rewrite Hc, Hm.
  replace (from_bytes int32_t bs >=? 0) with true
    by (symmetry; apply Z.geb_le; lia).
  rewrite orb_true_r.
  unfold bind, Reader.readInt. rewrite readPrimitive_run.
  change (Z.of_nat (sizeof int32_t)) with 4. rewrite Hl.
  rewrite readBytes_run.
  cbn [Reader.mem Reader.current_ Reader.end_ Reader.set_current].
  reflexivity.
Qed.

(** ** What a write puts on the wire *)

Section WireImage.
Context {B : Build}.

(** The bytes of a value depend on the value modulo 2^bits only, and on
    the size of the type only. *)
Lemma to_bytes_congruent (T T' : ctype) (x k : Z) :
  sizeof T = sizeof T' ->
  to_bytes T (x + k * 2 ^ bits T') = to_bytes T' x.
Proof.
  intros Hs. unfold to_bytes. rewrite Hs. f_equal.
  rewrite (le_split_mod (x + _)), (le_split_mod x).
  f_equal. unfold bits. rewrite (Z.mul_comm 8). apply Z_mod_plus_full.
Qed.

Lemma to_bytes_cast (T T' : ctype) (v : Z) :
  sizeof T = sizeof T' -> to_bytes T (cast T' v) = to_bytes T' v.
Proof.
  intros Hs. destruct (cast_congruent T' v) as [k ->].
  apply to_bytes_congruent, Hs.
Qed.

Lemma to_bytes_same_size (T T' : ctype) (v : Z) :
  sizeof T = sizeof T' -> to_bytes T v = to_bytes T' v.
Proof. intros Hs. unfold to_bytes. rewrite Hs. reflexivity. Qed.

Lemma store_splice (m : Mem.storage) (off : Z) (bs : list byte) :
  0 <= off -> off + Z.of_nat (length bs) <= Mem.size m ->
  Mem.store m off bs = Some (Mem.splice m off bs).
Proof. intros. apply store_Some. split; [lia | reflexivity]. Qed.

Lemma requested_nonneg (op : write_op) : call_ok op -> 0 <= requested op.
Proof. destruct op; cbn [requested call_ok]; lia. Qed.

(** [writePrimitive] when the value fits, with the buffer spelled out. *)
Lemma writePrimitive_splice (T : ctype) (v : Z) (w : Writer.t) :
  writer_ok w -> fits w (Z.of_nat (sizeof T)) ->
  Writer.writePrimitive T v w =
  Done tt (Writer.mk (Mem.splice (Writer.buffer_ w) (Writer.position_ w)
                                 (to_bytes T v))
                     (Writer.position_ w + Z.of_nat (sizeof T))
                     (Writer.capacity_ w)).
Proof.
  intros Hok Hf. destruct (writePrimitive_fits T v w Hok Hf) as (b & Hst & ->).
  apply store_Some in Hst. destruct Hst as [_ ->]. reflexivity.
Qed.

(** Every write that fits stores its wire image at the cursor and moves the
    cursor by what it requested. *)
Lemma write_stores_encoding (op : write_op) (w : Writer.t) :
  writer_ok w -> call_ok op -> fits w (requested op) ->
  run_write op w =
    Done tt (Writer.mk (Mem.splice (Writer.buffer_ w) (Writer.position_ w)
                                   (encoding op))
                       (Writer.position_ w + requested op)
                       (Writer.capacity_ w)) /\
  Z.of_nat (length (encoding op)) = written op.
Proof.
  intros Hok Hcall Hf.
  pose proof (writer_ok_bounds w Hok) as (Hp & Hc & Hb).
  destruct op as [v | v | v | v | bv | v | v | v | v | value n | value n | n | n];
    cbn [run_write requested written call_ok encoding] in *.
  - split; [apply (writePrimitive_splice char_t); assumption |].
    rewrite length_to_bytes. reflexivity.
  - split; [apply (writePrimitive_splice int8_t); assumption |].
    rewrite length_to_bytes. reflexivity.
  - split; [| rewrite length_to_bytes; reflexivity].
    unfold Writer.writeShort.
    rewrite (writePrimitive_splice uint16_t) by assumption.
    rewrite (to_bytes_cast uint16_t uint16_t) by reflexivity.
    rewrite (to_bytes_same_size uint16_t int16_t) by reflexivity.
    reflexivity.
  - split; [apply (writePrimitive_splice int32_t); assumption |].
    rewrite length_to_bytes. reflexivity.
  - split; [| reflexivity].
    unfold Writer.writeBool, Writer.writeByte.
    rewrite (writePrimitive_splice int8_t) by assumption.
    rewrite to_bytes_int8. destruct bv; reflexivity.
  - split; [apply (writePrimitive_splice int64_t); assumption |].
    rewrite length_to_bytes. reflexivity.
  - split; [| rewrite length_to_bytes; reflexivity].
    unfold Writer.writeFloat.
    rewrite (writePrimitive_splice int32_t) by assumption.
    rewrite (bit_copy_cast float_t int32_t) by reflexivity.
    rewrite (to_bytes_cast int32_t int32_t) by reflexivity.
    rewrite (to_bytes_same_size int32_t float_t) by reflexivity.
    reflexivity.
  - split; [| rewrite length_to_bytes; reflexivity].
    unfold Writer.writeDouble.
    rewrite (writePrimitive_splice int64_t) by assumption.
    rewrite (bit_copy_cast double_t int64_t) by reflexivity.
    rewrite (to_bytes_cast int64_t int64_t) by reflexivity.
    rewrite (to_bytes_same_size int64_t double_t) by reflexivity.
    reflexivity.
  - split; [| rewrite length_to_bytes; reflexivity].
    rewrite writeEnumInSingleByte_run.
    apply in_rangeb_spec in Hcall. rewrite Hcall, orb_true_r.
    rewrite (writePrimitive_splice int8_t) by assumption.
    rewrite (to_bytes_cast int8_t int8_t) by reflexivity.
    reflexivity.
  - (* writeBinaryString *)
    unfold fits in Hf.
    assert (Hls : Datatypes.length (Mem.slice value 0 n) = Z.to_nat n)
      by (apply slice_length; lia).
    assert (Hlp : Datatypes.length (to_bytes int32_t n) = 4%nat)
      by apply length_to_bytes.
    split; [| rewrite length_app, Hls, Hlp; lia].
    rewrite writeBinaryString_run.
    rewrite (size_add_nowrap n 4) by lia.
    rewrite guard_fits by lia.
    rewrite (to_bytes_cast int32_t int32_t) by reflexivity.
    rewrite store_splice by (rewrite ?Hlp; lia).
    replace (Mem.load value 0 n) with (Some (Mem.slice value 0 n))
      by (symmetry; apply load_Some; split; [lia | reflexivity]).
    rewrite store_splice.
    2: lia.
    2:{ unfold Mem.size. rewrite splice_length by (rewrite ?Hlp; lia).
        fold (Mem.size (Writer.buffer_ w)). lia. }
    rewrite (size_add_nowrap 4 n) by lia.
    rewrite size_add_nowrap by lia.
    replace (Writer.position_ w + 4)
      with (Writer.position_ w + Z.of_nat (Datatypes.length (to_bytes int32_t n)))
      by (rewrite Hlp; reflexivity).
    rewrite splice_app by (rewrite ?Hlp; lia).
    do 2 f_equal. lia.
  - (* writeBytes *)
    unfold fits in Hf.
    assert (Hls : Datatypes.length (Mem.slice value 0 n) = Z.to_nat n)
      by (apply slice_length; lia).
    split; [| rewrite Hls; lia].
    rewrite writeBytes_run, guard_fits by lia.
    replace (Mem.load value 0 n) with (Some (Mem.slice value 0 n))
      by (symmetry; apply load_Some; split; [lia | reflexivity]).
    rewrite store_splice by lia.
    rewrite size_add_nowrap by lia. reflexivity.
  - (* writeZeros *)
    unfold fits in Hf.
    split; [| rewrite repeat_length; lia].
    rewrite writeZeros_run, guard_fits by lia.
    rewrite store_splice by (rewrite ?repeat_length; lia).
    rewrite size_add_nowrap by lia. reflexivity.
  - (* reserveBytes *)
    unfold fits in Hf. split; [| reflexivity].
    unfold bind. rewrite reserveBytes_run, guard_fits by lia.
    rewrite size_add_nowrap by lia. rewrite splice_nil. reflexivity.
Qed.

End WireImage.

Section Sequences.
Context {B : Build}.

Lemma total_requested_nonneg (ops : list write_op) :
  Forall call_ok ops -> 0 <= total_requested ops.
Proof.
  induction 1 as [| op ops Hop _ IH]; simpl; [lia |].
  pose proof (requested_nonneg op Hop). lia.
Qed.

Lemma writer_ok_after (w : Writer.t) (bs : list byte) (n : Z) :
  writer_ok w -> 0 <= n -> fits w n ->
  Writer.position_ w + Z.of_nat (length bs) <= Mem.size (Writer.buffer_ w) ->
  writer_ok (Writer.mk (Mem.splice (Writer.buffer_ w) (Writer.position_ w) bs)
                       (Writer.position_ w + n) (Writer.capacity_ w)).
Proof.
  intros Hok Hn Hf Hb.
  pose proof (writer_ok_bounds w Hok) as (Hp & Hc & Hbk). unfold fits in Hf.
  apply writer_ok_intro; cbn [Writer.position_ Writer.capacity_ Writer.buffer_].
  - lia.
  - lia.
  - unfold Mem.size. rewrite splice_length by lia.
    fold (Mem.size (Writer.buffer_ w)). lia.
Qed.

(** A sequence of writes that fits stores the concatenation of the wire
    images, provided each write stores what it requests. *)
Lemma run_writes_stores (ops : list write_op) :
  Forall call_ok ops ->
  Forall (fun op => written op = requested op) ops ->
  forall w,
    writer_ok w -> fits w (total_requested ops) ->
    run_writes ops w =
      Done tt (Writer.mk (Mem.splice (Writer.buffer_ w) (Writer.position_ w)
                                     (concat (map encoding ops)))
                         (Writer.position_ w + total_requested ops)
                         (Writer.capacity_ w)) /\
    Z.of_nat (length (concat (map encoding ops))) = total_requested ops.
Proof.
  intros Hcall Hst. induction ops as [| op ops IH]; intros w Hok Hf.
  - simpl. rewrite splice_nil, Z.add_0_r, writer_eta. split; reflexivity.
  - inversion Hcall as [| ? ? Hop Hops]; subst.
    inversion Hst as [| ? ? Hwr Hwrs]; subst.
    pose proof (requested_nonneg op Hop) as H0.
    pose proof (total_requested_nonneg ops Hops) as H1.
    pose proof (writer_ok_bounds w Hok) as (Hp & Hc & Hbk).
    simpl total_requested in *. unfold fits in Hf.
    destruct (write_stores_encoding op w Hok Hop) as [Hrun Hlen];
      [unfold fits; lia |].
    rewrite Hwr in Hlen.
    set (w1 := Writer.mk (Mem.splice (Writer.buffer_ w) (Writer.position_ w)
                                     (encoding op))
                         (Writer.position_ w + requested op)
                         (Writer.capacity_ w)) in *.
    assert (Hok1 : writer_ok w1)
      by (apply writer_ok_after; [assumption | lia | unfold fits; lia | lia]).
    destruct (IH Hops Hwrs w1 Hok1) as [Hrest Hlrest].
    { unfold fits, w1. cbn [Writer.position_ Writer.capacity_]. lia. }
    split.
    + simpl run_writes. unfold bind at 1. rewrite Hrun, Hrest.
      unfold w1. cbn [Writer.buffer_ Writer.position_ Writer.capacity_].
      simpl map. simpl concat.
      rewrite <- Hlen at 1.
      rewrite splice_app by (rewrite ?Hlen, ?Hlrest; lia).
      do 2 f_equal. lia.
    + simpl map. simpl concat. rewrite length_app. lia.
Qed.

End Sequences.

(** X9.  Writes append.  A sequence of well-formed writes (none of them a
    bare [reserveBytes] of a non-zero length) whose requests together fit
    the remaining capacity returns, in every build; the buffer it leaves is
    the old one with the concatenation of the writes' wire images stored at
    the old position, and the position has advanced by the total length.
    What each write stores depends on the operation alone, not on the
    position or on what the buffer held. *)
Theorem writes_append {B : Build} (ops : list write_op) (w : Writer.t) :
  writer_ok w ->
  Forall call_ok ops ->
  Forall (fun op => written op = requested op) ops ->
  fits w (total_requested ops) ->
  run_writes ops w =
    Done tt (Writer.mk (Mem.splice (Writer.buffer_ w) (Writer.position_ w)
                                   (concat (map encoding ops)))
                       (Writer.position_ w + total_requested ops)
                       (Writer.capacity_ w)) /\
  Mem.size (concat (map encoding ops)) = total_requested ops /\
  Mem.load (Mem.splice (Writer.buffer_ w) (Writer.position_ w)
                       (concat (map encoding ops)))
           (Writer.position_ w) (total_requested ops) =
    Some (concat (map encoding ops)).
Proof.
  intros Hok Hcall Hst Hf.
  destruct (run_writes_stores ops Hcall Hst w Hok Hf) as [Hrun Hlen].
  split; [exact Hrun |]. split; [exact Hlen |].
  pose proof (writer_ok_bounds w Hok) as (Hp & Hc & Hbk). unfold fits in Hf.
  rewrite <- Hlen. apply (load_store_same (Writer.buffer_ w)).
  apply store_splice; lia.
Qed.

(** ** Reading back what a sequence of writes has stored *)

Section Decoding.
Context {B : Build}.

Lemma readPrimitive_of_image (Tr Tw : ctype) (v : Z) (r : Reader.t) :
  sizeof Tr = sizeof Tw ->
  Mem.load (Reader.mem r) (Reader.current_ r)
           (Z.of_nat (length (to_bytes Tw v))) = Some (to_bytes Tw v) ->
  Reader.readPrimitive Tr r =
  Done (cast Tr v)
       (Reader.set_current r
          (Reader.current_ r + Z.of_nat (length (to_bytes Tw v)))).
Proof.
  intros Hs Hl. rewrite length_to_bytes in *. rewrite <- Hs in *.
  rewrite readPrimitive_run, Hl.
  rewrite from_to_bytes_cast by exact Hs. reflexivity.
Qed.

(** One read takes back one write from its wire image. *)
Lemma read_decodes (op : write_op) (r : Reader.t) :
  value_ok op ->
  Mem.load (Reader.mem r) (Reader.current_ r)
           (Z.of_nat (length (encoding op))) = Some (encoding op) ->
  Reader.current_ r + Z.of_nat (length (encoding op)) <= Reader.end_ r ->
  run_read (decoder op) r =
  Done (decoded op)
       (Reader.set_current r
          (Reader.current_ r + Z.of_nat (length (encoding op)))).
Proof.
  intros Hv Hl He.
  destruct op as [v | v | v | v | bv | v | v | v | v | value n | value n | n | n];
    cbn [value_ok encoding decoder decoded run_read] in *; unfold fmap, bind.
  - unfold Reader.readChar.
    rewrite (readPrimitive_of_image char_t char_t v) by (reflexivity || exact Hl).
    rewrite cast_id by exact Hv. reflexivity.
  - unfold Reader.readByte.
    rewrite (readPrimitive_of_image int8_t int8_t v) by (reflexivity || exact Hl).
    rewrite cast_id by exact Hv. reflexivity.
  - unfold Reader.readShort.
    rewrite (readPrimitive_of_image int16_t int16_t v) by (reflexivity || exact Hl).
    rewrite cast_id by exact Hv. reflexivity.
  - unfold Reader.readInt.
    rewrite (readPrimitive_of_image int32_t int32_t v) by (reflexivity || exact Hl).
    rewrite cast_id by exact Hv. reflexivity.
  - unfold Reader.readBool, Reader.readByte, bind.
    rewrite readPrimitive_run. change (Z.of_nat (sizeof int8_t)) with 1.
    simpl length in Hl. change (Z.of_nat 1) with 1 in Hl. rewrite Hl.
    unfold ret. rewrite int8_zero_byte. destruct bv; reflexivity.
  - unfold Reader.readLong.
    rewrite (readPrimitive_of_image int64_t int64_t v) by (reflexivity || exact Hl).
    rewrite cast_id by exact Hv. reflexivity.
  - unfold Reader.readFloat, bind.
    rewrite (readPrimitive_of_image int32_t float_t v) by (reflexivity || exact Hl).
    unfold ret. rewrite (bit_copy_cast int32_t float_t) by reflexivity.
    rewrite cast_cast by reflexivity. rewrite cast_id by exact Hv. reflexivity.
  - unfold Reader.readDouble, bind.
    rewrite (readPrimitive_of_image int64_t double_t v) by (reflexivity || exact Hl).
    unfold ret. rewrite (bit_copy_cast int64_t double_t) by reflexivity.
    rewrite cast_cast by reflexivity. rewrite cast_id by exact Hv. reflexivity.
  - unfold Reader.readEnumInSingleByte, Reader.readByte, bind.
    rewrite (readPrimitive_of_image int8_t int8_t v) by (reflexivity || exact Hl).
    unfold ret. rewrite cast_cast by reflexivity.
    rewrite (cast_id char_t) by exact Hv. reflexivity.
  - (* readTextString *)
    destruct Hv as [Hn Hmax].
    assert (Hls : Z.of_nat (length (Mem.slice value 0 n)) = n)
      by (rewrite slice_length by lia; lia).
    assert (Hlp : Z.of_nat (length (to_bytes int32_t n)) = 4)
      by (rewrite length_to_bytes; reflexivity).
    apply load_app in Hl. destruct Hl as [Hl1 Hl2].
    rewrite Hlp in Hl1, Hl2. rewrite Hls in Hl2.
    rewrite length_app, Nat2Z.inj_add, Hlp, Hls in *.
    rewrite (readTextString_prefixed r n (Mem.slice value 0 n));
      try assumption; [| lia | lia].
    unfold ret. rewrite Z.add_assoc. reflexivity.
  - (* readBytes after writeBytes *)
    assert (Hls : Z.of_nat (length (Mem.slice value 0 n)) = n)
      by (rewrite slice_length by lia; lia).
    rewrite Hls in *. rewrite readBytes_run, Hl.
    replace (Reader.current_ r + n <=? Reader.end_ r) with true
      by (symmetry; apply Z.leb_le; lia).
    rewrite orb_true_r. reflexivity.
  - (* readBytes after writeZeros *)
    assert (Hls : Z.of_nat (length (repeat Byte.x00 (Z.to_nat n))) = n)
      by (rewrite repeat_length; lia).
    rewrite Hls in *. rewrite readBytes_run, Hl.
    replace (Reader.current_ r + n <=? Reader.end_ r) with true
      by (symmetry; apply Z.leb_le; lia).
    rewrite orb_true_r. reflexivity.
  - contradiction.
Qed.

(** A sequence of reads takes back a sequence of writes from the
    concatenation of their wire images. *)
Lemma run_reads_decodes (ops : list write_op) :
  Forall value_ok ops ->
  forall r,
    Mem.load (Reader.mem r) (Reader.current_ r)
             (Z.of_nat (length (concat (map encoding ops)))) =
      Some (concat (map encoding ops)) ->
    Reader.current_ r + Z.of_nat (length (concat (map encoding ops)))
      <= Reader.end_ r ->
    run_reads (map decoder ops) r =
    Done (map decoded ops)
         (Reader.set_current r
            (Reader.current_ r +
             Z.of_nat (length (concat (map encoding ops))))).
Proof.
  intros Hv. induction ops as [| op ops IH]; intros r Hl He.
  - simpl. unfold ret. rewrite Z.add_0_r.
    unfold Reader.set_current. rewrite reader_eta. reflexivity.
  - inversion Hv as [| ? ? Hop Hops]; subst.
    simpl map in *. simpl concat in *.
    destruct (load_app _ _ _ _ Hl) as [Hl1 Hl2].
    rewrite length_app, Nat2Z.inj_add in He.
    simpl run_reads. unfold bind at 1.
    rewrite (read_decodes op r Hop Hl1) by lia.
    unfold bind at 1.
    rewrite (IH Hops); cbn [Reader.mem Reader.current_ Reader.end_ Reader.set_current].
    + unfold ret, Reader.set_current. cbn [Reader.mem Reader.end_].
      rewrite length_app, Nat2Z.inj_add. do 2 f_equal. lia.
    + exact Hl2.
    + lia.
Qed.

Lemma value_ok_call_ok (op : write_op) :
  value_ok op -> call_ok op /\ written op = requested op.
Proof.
  destruct op; cbn [value_ok call_ok written requested];
    intros H; try (split; [exact I || exact H | reflexivity]).
  - split; [apply H | reflexivity].
  - contradiction.
Qed.

End Decoding.

(** X10.  Round trip of a sequence.  Take any sequence of writes whose
    arguments are values of their declared types ([reserveBytes] excluded)
    and whose requests together fit the remaining capacity.  The writes
    return, in every build and byte order.  A Reader placed on the written
    buffer at the position where the writes began, with its end at or after
    the position where they stopped, then takes back every value, in
    order, with the matching sequence of reads, and stops exactly where the
    Writer stopped.  In particular a Writer constructed over fresh storage
    and a Reader constructed over its [data()] and [size()] agree, and the
    Reader ends with [current_ = end_]. *)
Theorem sequence_round_trip {B : Build} (ops : list write_op) :
  Forall value_ok ops ->
  (forall w,
      writer_ok w -> fits w (total_requested ops) ->
      exists w',
        run_writes ops w = Done tt w' /\
        Writer.position_ w' = Writer.position_ w + total_requested ops /\
        forall r,
          Reader.mem r = Writer.buffer_ w' ->
          Reader.current_ r = Writer.position_ w ->
          Writer.position_ w' <= Reader.end_ r ->
          run_reads (map decoder ops) r =
          Done (map decoded ops)
               (Reader.mk (Reader.mem r) (Writer.position_ w') (Reader.end_ r))) /\
  (forall storage capacity,
      0 <= capacity <= Mem.size storage -> capacity < 2 ^ 64 ->
      total_requested ops <= capacity ->
      exists w0 w' m n r',
        Writer.new storage capacity = Done tt w0 /\
        run_writes ops w0 = Done tt w' /\
        Writer.data w' = Done m w' /\
        Writer.size w' = Done n w' /\
        n = total_requested ops /\
        run_reads (map decoder ops) (Reader.new m 0 n) =
          Done (map decoded ops) r' /\
        Reader.current_ r' = Reader.end_ r').
Proof.
  intros Hv.
  assert (Hcall : Forall call_ok ops)
    by (eapply Forall_impl; [| exact Hv]; intros op H;
        apply (value_ok_call_ok op H)).
  assert (Hst : Forall (fun op => written op = requested op) ops)
    by (eapply Forall_impl; [| exact Hv]; intros op H;
        apply (value_ok_call_ok op H)).
  assert (General : forall w,
      writer_ok w -> fits w (total_requested ops) ->
      exists w',
        run_writes ops w = Done tt w' /\
        Writer.position_ w' = Writer.position_ w + total_requested ops /\
        forall r,
          Reader.mem r = Writer.buffer_ w' ->
          Reader.current_ r = Writer.position_ w ->
          Writer.position_ w' <= Reader.end_ r ->
          run_reads (map decoder ops) r =
          Done (map decoded ops)
               (Reader.mk (Reader.mem r) (Writer.position_ w') (Reader.end_ r))).
  { intros w Hok Hf.
    destruct (run_writes_stores ops Hcall Hst w Hok Hf) as [Hrun Hlen].
    pose proof (writer_ok_bounds w Hok) as (Hp & Hc & Hbk). unfold fits in Hf.
    eexists. split; [exact Hrun |].
    cbn [Writer.position_ Writer.buffer_]. split; [reflexivity |].
    intros r Hm Hcur He.
    rewrite (run_reads_decodes ops Hv r).
    - unfold Reader.set_current. rewrite Hlen, Hcur. reflexivity.
    - rewrite Hm, Hcur. apply (load_store_same (Writer.buffer_ w)).
      apply store_splice; lia.
    - rewrite Hlen, Hcur. exact He. }
  split; [exact General |].
  intros storage capacity Hcap Hlt Htot.
  set (w0 := Writer.mk storage 0 capacity).
  assert (Hok : writer_ok w0) by (apply writer_ok_intro; simpl; lia).
  destruct (General w0 Hok) as (w' & Hrun & Hpos & Hread);
    [unfold fits; simpl; lia |].
  simpl in Hpos.
  exists w0, w', (Writer.buffer_ w'), (Writer.position_ w').
  eexists.
  split; [apply new_run; lia |].
  split; [exact Hrun |].
  split; [reflexivity |]. split; [reflexivity |]. split; [exact Hpos |].
  split.
  - apply Hread; unfold Reader.new; cbn [Reader.mem Reader.current_ Reader.end_];
      [reflexivity | reflexivity | lia].
  - unfold Reader.new. cbn [Reader.current_ Reader.end_]. lia.
Qed.

(** ** A length-prefixed string, written in one step or in several *)

Section PrefixedWrites.
Context {B : Build}.

(** [writeInt] of the length followed by [writeBytes], when only the
    prefix fits: the prefix is stored before the assertion stops the
    second write. *)
Lemma two_step_stops_halfway (value : list byte) (n : Z) (w : Writer.t) :
  NDEBUG = false -> writer_ok w -> 0 <= n ->
  fits w 4 -> ~ fits w (n + 4) ->
  Writer.position_ w + n + 4 < 2 ^ 64 ->
  (Writer.writeInt (cast int32_t n) ;; Writer.writeBytes value n) w =
  Abort (Writer.mk (Mem.splice (Writer.buffer_ w) (Writer.position_ w)
                               (to_bytes int32_t n))
                   (Writer.position_ w + 4) (Writer.capacity_ w)).
Proof.
  intros Hd Hok Hn Hf4 Hnf Hnw.
  pose proof (writer_ok_bounds w Hok) as (Hp & Hc & Hbk).
  unfold fits in *.
  unfold bind, Writer.writeInt.
  rewrite (writePrimitive_splice int32_t) by assumption.
  change (Z.of_nat (sizeof int32_t)) with 4.
  rewrite (to_bytes_cast int32_t int32_t) by reflexivity.
  rewrite writeBytes_run, guard_overrun;
    cbn [Writer.position_ Writer.capacity_]; auto; lia.
Qed.

Lemma one_step_is_two_steps (value : list byte) (n : Z) (w : Writer.t) :
  writer_ok w -> 0 <= n <= Mem.size value -> fits w (n + 4) ->
  Writer.writeBinaryString value n w =
  (Writer.writeInt (cast int32_t n) ;; Writer.writeBytes value n) w.
Proof.
  intros Hok Hn Hf.
  pose proof (writer_ok_bounds w Hok) as (Hp & Hc & Hbk).
  destruct (write_stores_encoding (WriteBinaryString value n) w Hok Hn Hf)
    as [Hone _].
  cbn [run_write requested encoding] in Hone. rewrite Hone.
  unfold fits in Hf.
  unfold bind, Writer.writeInt.
  rewrite (writePrimitive_splice int32_t)
    by (assumption ||
        (unfold fits; change (Z.of_nat (sizeof int32_t)) with 4; lia)).
  change (Z.of_nat (sizeof int32_t)) with 4.
  rewrite (to_bytes_cast int32_t int32_t) by reflexivity.
  set (prefix := to_bytes int32_t n).
  assert (Hlp : Z.of_nat (length prefix) = 4)
    by (unfold prefix; rewrite length_to_bytes; reflexivity).
  set (w1 := Writer.mk (Mem.splice (Writer.buffer_ w) (Writer.position_ w) prefix)
                       (Writer.position_ w + 4) (Writer.capacity_ w)).
  assert (Hok1 : writer_ok w1).
  { unfold w1. apply writer_ok_after; [assumption | lia | unfold fits; lia | lia]. }
  destruct (write_stores_encoding (WriteBytes value n) w1 Hok1 Hn) as [Htwo _].
  { unfold fits, w1. cbn [requested Writer.position_ Writer.capacity_]. lia. }
  cbn [run_write requested encoding] in Htwo. rewrite Htwo.
  unfold w1. cbn [Writer.buffer_ Writer.position_ Writer.capacity_].
  replace (Writer.position_ w + 4)
    with (Writer.position_ w + Z.of_nat (length prefix)) by lia.
  rewrite splice_app.
  - do 2 f_equal. lia.
  - lia.
  - rewrite Hlp, slice_length by lia. lia.
Qed.

(** The back-patching way of writing a length-prefixed string. *)
Lemma back_patch_is_one_step (payload : list byte) (n : Z) (w : Writer.t) :
  writer_ok w -> 0 <= n <= Mem.size payload -> fits w (n + 4) ->
  length_prefixed_by_back_patch payload n w =
  Writer.writeBinaryString payload n w.
Proof.
  intros Hok Hn Hf.
  pose proof (writer_ok_bounds w Hok) as (Hp & Hc & Hbk).
  destruct (write_stores_encoding (WriteBinaryString payload n) w Hok Hn Hf)
    as [Hone _].
  cbn [run_write requested encoding] in Hone. rewrite Hone.
  unfold fits in Hf.
  set (prefix := to_bytes int32_t n).
  set (src := Mem.slice payload 0 n).
  assert (Hlp : Z.of_nat (length prefix) = 4)
    by (unfold prefix; rewrite length_to_bytes; reflexivity).
  assert (Hls : Z.of_nat (length src) = n)
    by (unfold src; rewrite slice_length by lia; lia).
  unfold length_prefixed_by_back_patch.
  (* reserveBytes(4) *)
  erewrite bind_Done.
  2:{ rewrite reserveBytes_run, guard_fits, size_add_nowrap by lia. reflexivity. }
  (* writeBytes(payload, n) *)
  set (w1 := Writer.mk (Writer.buffer_ w) (Writer.position_ w + 4)
                       (Writer.capacity_ w)).
  assert (Hok1 : writer_ok w1) by (apply writer_ok_intro; simpl; lia).
  destruct (write_stores_encoding (WriteBytes payload n) w1 Hok1 Hn) as [Hwb _].
  { unfold fits, w1. cbn [requested Writer.position_ Writer.capacity_]. lia. }
  cbn [run_write requested encoding] in Hwb.
  erewrite bind_Done by exact Hwb.
  fold src. unfold w1. cbn [Writer.buffer_ Writer.position_ Writer.capacity_].
  (* position(); position(offset) *)
  erewrite bind_Done by reflexivity.
  erewrite bind_Done by reflexivity.
  cbn [Writer.buffer_ Writer.position_ Writer.capacity_ Writer.set_position_].
  (* writeInt(finish - offset - 4) *)
  replace (Writer.position_ w + 4 + n - Writer.position_ w - 4) with n by lia.
  set (w2 := Writer.mk (Mem.splice (Writer.buffer_ w) (Writer.position_ w + 4) src)
                       (Writer.position_ w) (Writer.capacity_ w)).
  assert (Hok2 : writer_ok w2).
  { apply writer_ok_intro; unfold w2;
      cbn [Writer.buffer_ Writer.position_ Writer.capacity_]; try lia.
    unfold Mem.size. rewrite splice_length by lia.
    fold (Mem.size (Writer.buffer_ w)). lia. }
  erewrite bind_Done.
  2:{ unfold Writer.writeInt.
      rewrite (writePrimitive_splice int32_t _ w2 Hok2)
        by (unfold fits, w2; change (Z.of_nat (sizeof int32_t)) with 4;
            cbn [Writer.position_ Writer.capacity_]; lia).
      rewrite (to_bytes_cast int32_t int32_t) by reflexivity.
      reflexivity. }
  fold prefix. unfold w2.
  cbn [Writer.buffer_ Writer.position_ Writer.capacity_].
  (* position(finish) *)
  unfold Writer.position_set, bind, get, put.
  unfold Writer.set_position_.
  cbn [Writer.buffer_ Writer.position_ Writer.capacity_].
  rewrite splice_commute by lia.
  replace (Writer.position_ w + 4)
    with (Writer.position_ w + Z.of_nat (length prefix)) by lia.
  rewrite splice_app by lia.
  do 2 f_equal. lia.
Qed.

(** [writeBytes] of a concatenation, in one call or in two. *)
Lemma writeBytes_split (a b : list byte) (w : Writer.t) :
  writer_ok w -> fits w (Mem.size a + Mem.size b) ->
  Writer.writeBytes (a ++ b) (Mem.size a + Mem.size b) w =
  (Writer.writeBytes a (Mem.size a) ;; Writer.writeBytes b (Mem.size b)) w.
Proof.
  intros Hok Hf.
  pose proof (writer_ok_bounds w Hok) as (Hp & Hc & Hbk).
  assert (Ha : Mem.slice a 0 (Mem.size a) = a).
  { pose proof (load_all a) as H. apply load_Some in H. symmetry. apply H. }
  assert (Hb : Mem.slice b 0 (Mem.size b) = b).
  { pose proof (load_all b) as H. apply load_Some in H. symmetry. apply H. }
  assert (Hab : Mem.slice (a ++ b) 0 (Mem.size a + Mem.size b) = a ++ b).
  { pose proof (load_all (a ++ b)) as H. apply load_Some in H.
    unfold Mem.size in *. rewrite length_app, Nat2Z.inj_add in H.
    symmetry. apply H. }
  unfold fits in Hf. unfold Mem.size in Hf, Hbk.
  destruct (write_stores_encoding
              (WriteBytes (a ++ b) (Mem.size a + Mem.size b)) w Hok) as [Hone _].
  { cbn [call_ok]. unfold Mem.size. rewrite length_app. lia. }
  { unfold fits. cbn [requested]. unfold Mem.size. lia. }
  cbn [run_write requested encoding] in Hone. rewrite Hone, Hab.
  destruct (write_stores_encoding (WriteBytes a (Mem.size a)) w Hok) as [H1 _].
  { cbn [call_ok]. unfold Mem.size. lia. }
  { unfold fits. cbn [requested]. unfold Mem.size. lia. }
  cbn [run_write requested encoding] in H1. rewrite Ha in H1.
  unfold bind. rewrite H1.
  set (w1 := Writer.mk (Mem.splice (Writer.buffer_ w) (Writer.position_ w) a)
                       (Writer.position_ w + Mem.size a) (Writer.capacity_ w)).
  assert (Hok1 : writer_ok w1).
  { unfold w1. apply writer_ok_after;
      [assumption | unfold Mem.size; lia | unfold fits, Mem.size; lia
       | unfold Mem.size; lia]. }
  destruct (write_stores_encoding (WriteBytes b (Mem.size b)) w1 Hok1) as [H2 _].
  { cbn [call_ok]. unfold Mem.size. lia. }
  { unfold fits, w1. cbn [requested Writer.position_ Writer.capacity_].
    unfold Mem.size. lia. }
  cbn [run_write requested encoding] in H2. rewrite Hb in H2. rewrite H2.
  unfold w1. cbn [Writer.buffer_ Writer.position_ Writer.capacity_].
  unfold Mem.size. rewrite splice_app by (unfold Mem.size; lia).
  do 2 f_equal. lia.
Qed.

End PrefixedWrites.

(** X11.  One check for the whole string.  When prefix and payload fit,
    [writeBinaryString] leaves exactly what [writeInt] of the length
    followed by [writeBytes] of the payload leaves.  When only the prefix
    fits, a build with assertions tells them apart: [writeBinaryString]
    stops with the Writer untouched, because it checks the capacity for
    prefix and payload together before it stores anything, whereas the two
    calls stop with the prefix already stored and the position advanced. *)
Theorem writeBinaryString_checks_once {B : Build}
        (value : list byte) (n : Z) (w : Writer.t) :
  writer_ok w -> 0 <= n <= Mem.size value ->
  (fits w (n + 4) ->
   Writer.writeBinaryString value n w =
   (Writer.writeInt (cast int32_t n) ;; Writer.writeBytes value n) w) /\
  (NDEBUG = false -> fits w 4 -> ~ fits w (n + 4) ->
   Writer.position_ w + n + 4 < 2 ^ 64 ->
   Writer.writeBinaryString value n w = Abort w /\
   (Writer.writeInt (cast int32_t n) ;; Writer.writeBytes value n) w =
   Abort (Writer.mk (Mem.splice (Writer.buffer_ w) (Writer.position_ w)
                                (to_bytes int32_t n))
                    (Writer.position_ w + 4) (Writer.capacity_ w))).
Proof.
  intros Hok Hn. split.
  - intros Hf. apply one_step_is_two_steps; assumption.
  - intros Hd Hf4 Hnf Hnw. split.
    + apply (overrun_aborts (WriteBinaryString value n) w Hd Hok Hn);
        [cbn [requested]; lia | exact Hnf].
    + apply two_step_stops_halfway; try assumption. lia.
Qed.

(** X12.  Back-patching writes the same string.  Reserving the 4 bytes of
    the prefix, writing the payload, going back to the reserved offset,
    writing there the number of payload bytes written, and restoring the
    position leaves the Writer exactly as [writeBinaryString] of the same
    payload leaves it. *)
Theorem back_patching_writes_the_same_string {B : Build}
        (payload : list byte) (n : Z) (w : Writer.t) :
  writer_ok w -> 0 <= n <= Mem.size payload -> fits w (n + 4) ->
  length_prefixed_by_back_patch payload n w =
  Writer.writeBinaryString payload n w /\
  exists w',
    Writer.writeBinaryString payload n w = Done tt w' /\
    Writer.position_ w' = Writer.position_ w + n + 4.
Proof.
  intros Hok Hn Hf. split.
  - apply back_patch_is_one_step; assumption.
  - destruct (writeBinaryString_fits payload n w Hok Hn Hf) as (w' & Hw & Hp & _).
    exists w'. split; assumption.
Qed.

(** X13.  Raw bytes can be written in pieces.  When both fit, [writeBytes]
    of a concatenation leaves exactly what [writeBytes] of the first part
    followed by [writeBytes] of the second leaves. *)
Theorem writeBytes_in_two_pieces {B : Build} (a b : list byte) (w : Writer.t) :
  writer_ok w -> fits w (Mem.size a + Mem.size b) ->
  Writer.writeBytes (a ++ b) (Mem.size a + Mem.size b) w =
  (Writer.writeBytes a (Mem.size a) ;; Writer.writeBytes b (Mem.size b)) w /\
  exists w',
    Writer.writeBytes (a ++ b) (Mem.size a + Mem.size b) w = Done tt w' /\
    Mem.load (Writer.buffer_ w') (Writer.position_ w) (Mem.size a + Mem.size b)
      = Some (a ++ b).
Proof.
  intros Hok Hf. split; [apply writeBytes_split; assumption |].
  pose proof (writer_ok_bounds w Hok) as (Hp & Hc & Hbk). unfold fits in Hf.
  destruct (write_stores_encoding
              (WriteBytes (a ++ b) (Mem.size a + Mem.size b)) w Hok) as [Hone _].
  { cbn [call_ok]. unfold Mem.size. rewrite length_app. lia. }
  { unfold fits. cbn [requested]. lia. }
  cbn [run_write requested encoding] in Hone.
  assert (Hab : Mem.slice (a ++ b) 0 (Mem.size a + Mem.size b) = a ++ b).
  { pose proof (load_all (a ++ b)) as H. apply load_Some in H.
    unfold Mem.size in *. rewrite length_app, Nat2Z.inj_add in H.
    symmetry. apply H. }
  rewrite Hab in Hone. eexists. split; [exact Hone |].
  cbn [Writer.buffer_].
  replace (Mem.size a + Mem.size b) with (Z.of_nat (length (a ++ b)))
    by (unfold Mem.size; rewrite length_app; lia).
  apply (load_store_same (Writer.buffer_ w)). apply store_splice.
  - lia.
  - unfold Mem.size in *. rewrite length_app. lia.
Qed.

(** ** Zero fill *)

Section ZeroFill.
Context {B : Build}.

Lemma from_bytes_zeros (T : ctype) : from_bytes T (repeat Byte.x00 (sizeof T)) = 0.
Proof.
  unfold from_bytes, native.
  assert (H : le_combine (repeat Byte.x00 (sizeof T)) = 0) by apply le_combine_0.
  destruct big_endian; [rewrite rev_repeat |]; rewrite H; destruct T; reflexivity.
Qed.

Lemma readPrimitive_zeros (T : ctype) (r : Reader.t) :
  Mem.load (Reader.mem r) (Reader.current_ r) (Z.of_nat (sizeof T)) =
    Some (repeat Byte.x00 (sizeof T)) ->
  Reader.readPrimitive T r =
  Done 0 (Reader.set_current r (Reader.current_ r + Z.of_nat (sizeof T))).
Proof.
  intros Hl. rewrite readPrimitive_run, Hl, from_bytes_zeros. reflexivity.
Qed.

Lemma bit_copy_zero (T T' : ctype) : sizeof T = sizeof T' -> bit_copy T T' 0 = 0.
Proof.
  intros Hs. rewrite bit_copy_cast by exact Hs. destruct T'; reflexivity.
Qed.

Lemma fixed_width_read_of_zeros (op : read_op) (k : Z) (r : Reader.t) :
  fixed_width op = Some k ->
  Mem.load (Reader.mem r) (Reader.current_ r) k =
    Some (repeat Byte.x00 (Z.to_nat k)) ->
  run_read op r =
  Done match op with ReadBool => RBool false | _ => RInt 0 end
       (Reader.set_current r (Reader.current_ r + k)).
Proof.
  intros Hfw Hl.
  destruct op; inversion Hfw; subst k; cbn [run_read];
    unfold fmap, Reader.readChar, Reader.readByte, Reader.readShort,
      Reader.readInt, Reader.readBool, Reader.readEnumInSingleByte,
      Reader.readLong, Reader.readFloat, Reader.readDouble, Reader.readByte,
      bind;
    rewrite readPrimitive_zeros by exact Hl; unfold ret;
    rewrite ?bit_copy_zero by reflexivity; reflexivity.
Qed.

Lemma load_prefix_of_zeros (m : Mem.storage) (o k n : Z) :
  0 <= k <= n ->
  Mem.load m o n = Some (repeat Byte.x00 (Z.to_nat n)) ->
  Mem.load m o k = Some (repeat Byte.x00 (Z.to_nat k)).
Proof.
  intros Hk Hl.
  replace n with (k + (n - k)) in Hl at 1 by lia.
  assert (Hk0 : 0 <= k) by lia. assert (Hnk : 0 <= n - k) by lia.
  destruct (load_add m o k (n - k) _ Hk0 Hnk Hl) as (Hlk & _ & Heq).
  rewrite Hlk. f_equal.
  apply repeat_eq_app in Heq. destruct Heq as [Heq _].
  apply load_Some in Hlk. destruct Hlk as [(H0 & H1 & H2) _].
  rewrite slice_length in Heq by lia. congruence.
Qed.

End ZeroFill.

(** X14.  Zero fill reads as zero.  After [writeZeros] of [n] bytes that
    fit, every fixed-width read whose width is at most [n], started where
    the zeros begin, returns zero: 0 for the integer, enum, float and
    double reads (the all-zero bit pattern), false for [readBool]. *)
Theorem zero_fill_reads_as_zero {B : Build}
        (n : Z) (w : Writer.t) (op : read_op) (k : Z) :
  writer_ok w -> 0 <= n -> fits w n ->
  fixed_width op = Some k -> k <= n ->
  exists w',
    Writer.writeZeros n w = Done tt w' /\
    Writer.position_ w' = Writer.position_ w + n /\
    forall r,
      Reader.mem r = Writer.buffer_ w' ->
      Reader.current_ r = Writer.position_ w ->
      run_read op r =
      Done match op with ReadBool => RBool false | _ => RInt 0 end
           (Reader.mk (Reader.mem r) (Reader.current_ r + k) (Reader.end_ r)).
Proof.
  intros Hok Hn Hf Hfw Hk.
  pose proof (writer_ok_bounds w Hok) as (Hp & Hc & Hbk).
  destruct (write_stores_encoding (WriteZeros n) w Hok Hn Hf) as [Hrun _].
  cbn [run_write requested encoding] in Hrun.
  eexists. split; [exact Hrun |]. split; [reflexivity |].
  cbn [Writer.buffer_]. intros r Hm Hcur.
  assert (H0 : 0 <= k) by (destruct op; inversion Hfw; lia).
  unfold fits in Hf.
  rewrite (fixed_width_read_of_zeros op k r Hfw); [reflexivity |].
  apply (load_prefix_of_zeros _ _ k n); [lia |].
  rewrite Hm, Hcur.
  set (zs := repeat Byte.x00 (Z.to_nat n)).
  assert (Hlz : Z.of_nat (length zs) = n)
    by (unfold zs; rewrite repeat_length; lia).
  rewrite <- Hlz at 1.
  apply (load_store_same (Writer.buffer_ w)). apply store_splice; lia.
Qed.

(** * Concrete runs of the further properties *)

Lemma fixed_width_read_ignores_end_witness :
  let r := Reader.new [Byte.x2a; Byte.x00; Byte.x00; Byte.x00] 0 2 in
  let short := Reader.new [Byte.x2a; Byte.x00] 0 2 in
  fixed_width ReadInt = Some 4 /\
  Mem.in_bounds (Reader.mem r) (Reader.current_ r) 4 = true /\
  Mem.in_bounds (Reader.mem short) (Reader.current_ short) 4 = false /\
  (exists v, forall e,
      @run_read debug_le ReadInt (Reader.mk (Reader.mem r) (Reader.current_ r) e) =
      Done v (Reader.mk (Reader.mem r) (Reader.current_ r + 4) e)) /\
  @run_read debug_le ReadInt short = Undefined.
Proof.
  intros r short.
  assert (H1 : fixed_width ReadInt = Some 4) by reflexivity.
  assert (H2 : Mem.in_bounds (Reader.mem r) (Reader.current_ r) 4 = true)
    by reflexivity.
  assert (H3 : Mem.in_bounds (Reader.mem short) (Reader.current_ short) 4 = false)
    by reflexivity.
  repeat (split; [assumption |]).
  split.
  - exact (proj1 (@fixed_width_read_ignores_end debug_le ReadInt 4 r H1) H2).
  - exact (proj2 (@fixed_width_read_ignores_end debug_le ReadInt 4 short H1) H3).
Defined.

Lemma reread_after_unread_witness :
  let r := Reader.new [Byte.x2a; Byte.x00; Byte.x00; Byte.x00] 0 4 in
  let r' := Reader.mk [Byte.x2a; Byte.x00; Byte.x00; Byte.x00] 4 4 in
  fixed_width ReadInt = Some 4 /\
  @run_read debug_le ReadInt r = Done (RInt 42) r' /\
  Reader.unread 4 r' = Done tt r /\
  (Reader.unread 4 ;; @run_read debug_le ReadInt) r' = Done (RInt 42) r'.
Proof.
  intros r r'.
  assert (H1 : fixed_width ReadInt = Some 4) by reflexivity.
  assert (H2 : @run_read debug_le ReadInt r = Done (RInt 42) r') by reflexivity.
  repeat (split; [assumption |]).
  exact (@reread_after_unread debug_le ReadInt 4 r r' (RInt 42) H1 H2).
Defined.

Lemma writes_keep_position_within_capacity_witness :
  let w := Writer.mk (repeat Byte.x00 8) 4 8 in
  let w' := Writer.mk [Byte.x00; Byte.x00; Byte.x00; Byte.x00;
                       Byte.x2a; Byte.x00; Byte.x00; Byte.x00] 8 8 in
  @NDEBUG debug_le = false /\
  @run_write debug_le (WriteInt 42) w = Done tt w' /\
  Writer.capacity_ w' = Writer.capacity_ w /\
  Writer.position_ w' <= Writer.capacity_ w'.
Proof.
  intros w w'.
  assert (H1 : @NDEBUG debug_le = false) by reflexivity.
  assert (H2 : @run_write debug_le (WriteInt 42) w = Done tt w') by reflexivity.
  repeat (split; [assumption |]).
  destruct (@writes_keep_position_within_capacity debug_le (WriteInt 42) w)
    as [Hcap Hpos].
  split.
  - apply Hcap. rewrite H2. reflexivity.
  - exact (Hpos H1 w' H2).
Defined.

Lemma zero_length_operations_witness :
  let full := Writer.mk (repeat Byte.x00 4) 4 4 in
  let past := Writer.mk (repeat Byte.x00 4) 5 4 in
  let r := Reader.new (repeat Byte.x00 4) 4 0 in
  writer_ok full /\ fits full 0 /\
  @NDEBUG debug_le = false /\ in_range size_t (Writer.position_ past) /\
  Writer.capacity_ past < Writer.position_ past /\
  0 <= Reader.current_ r <= Mem.size (Reader.mem r) /\
  Reader.current_ r <= Reader.end_ r /\
  @Writer.writeZeros debug_le 0 full = Done tt full /\
  @Writer.writeZeros debug_le 0 past = Abort past /\
  @Reader.readBytes debug_le 0 r = Done [] r.
Proof.
  intros full past r.
  assert (H1 : writer_ok full) by (apply writer_ok_intro; by_computation).
  assert (H2 : fits full 0) by by_computation.
  assert (H3 : @NDEBUG debug_le = false) by reflexivity.
  assert (H4 : in_range size_t (Writer.position_ past)) by by_computation.
  assert (H5 : Writer.capacity_ past < Writer.position_ past) by reflexivity.
  assert (H6 : 0 <= Reader.current_ r <= Mem.size (Reader.mem r))
    by by_computation.
  assert (H7 : Reader.current_ r <= Reader.end_ r) by by_computation.
  repeat (split; [assumption |]).
  destruct (@zero_length_operations debug_le) as (Hw & Hp & Hr).
  split; [| split].
  - exact (proj1 (proj2 (Hw full [] H1 H2))).
  - exact (proj1 (proj2 (Hp past [] H3 H4 H5))).
  - exact (proj1 (Hr r H6 H7)).
Defined.

Lemma bool_wire_format_witness :
  let w := Writer.mk (repeat Byte.xff 2) 0 2 in
  let r := Reader.new [Byte.x07] 0 1 in
  writer_ok w /\ fits w 1 /\
  Mem.load (Reader.mem r) (Reader.current_ r) 1 = Some [Byte.x07] /\
  (exists w',
      @Writer.writeBool debug_le true w = Done tt w' /\
      Mem.load (Writer.buffer_ w') 0 1 = Some [Byte.x01]) /\
  @Reader.readBool debug_le r = Done true (Reader.mk [Byte.x07] 1 1).
Proof.
  intros w r.
  assert (H1 : writer_ok w) by (apply writer_ok_intro; by_computation).
  assert (H2 : fits w 1) by by_computation.
  assert (H3 : Mem.load (Reader.mem r) (Reader.current_ r) 1 = Some [Byte.x07])
    by reflexivity.
  repeat (split; [assumption |]).
  destruct (@bool_wire_format debug_le) as [Hwrite Hread].
  split.
  - destruct (Hwrite true w H1 H2) as (w' & Hw & _ & Hl).
    exists w'. split; [exact Hw | exact Hl].
  - exact (Hread r Byte.x07 H3).
Defined.

Lemma readBytes_in_two_pieces_witness :
  let m := [Byte.x01; Byte.x02; Byte.x03] in
  let r := Reader.new m 0 3 in
  0 <= 1 /\ 0 <= 2 /\
  @Reader.readBytes debug_le (1 + 2) r = Done m (Reader.mk m 3 3) /\
  (x <- @Reader.readBytes debug_le 1 ;;
   y <- @Reader.readBytes debug_le 2 ;; ret (x ++ y)) r =
  Done m (Reader.mk m 3 3).
Proof.
  intros m r.
  assert (H1 : 0 <= 1) by lia.
  assert (H2 : 0 <= 2) by lia.
  assert (H3 : @Reader.readBytes debug_le (1 + 2) r = Done m (Reader.mk m 3 3))
    by reflexivity.
  repeat (split; [assumption |]).
  exact (@readBytes_in_two_pieces debug_le 1 2 r (Reader.mk m 3 3) m H1 H2 H3).
Defined.

Lemma readTextString_returns_prefixed_bytes_witness :
  let m := [Byte.x02; Byte.x00; Byte.x00; Byte.x00; Byte.x41; Byte.x42] in
  let r := Reader.new m 0 6 in
  let r' := Reader.mk m 6 6 in
  @Reader.readTextString debug_le r = Done [Byte.x41; Byte.x42] r' /\
  exists bs,
    Mem.load m 0 4 = Some bs /\
    Mem.size [Byte.x41; Byte.x42] = cast size_t (@from_bytes debug_le int32_t bs) /\
    Reader.current_ r' = 0 + 4 + Mem.size [Byte.x41; Byte.x42].
Proof.
  intros m r r'.
  assert (H : @Reader.readTextString debug_le r = Done [Byte.x41; Byte.x42] r')
    by reflexivity.
  split; [exact H |].
  destruct (@readTextString_returns_prefixed_bytes debug_le r r' _ H)
    as (bs & Hp & _ & Hlen & Hcur & _).
  exists bs. split; [exact Hp |]. split; [exact Hlen | exact Hcur].
Defined.

Lemma readTextString_is_readInt_then_readBytes_witness :
  let m := [Byte.x02; Byte.x00; Byte.x00; Byte.x00; Byte.x41; Byte.x42] in
  let bs := [Byte.x02; Byte.x00; Byte.x00; Byte.x00] in
  let r := Reader.new m 0 6 in
  Mem.load (Reader.mem r) (Reader.current_ r) 4 = Some bs /\
  0 <= @from_bytes debug_le int32_t bs /\
  @Reader.readTextString debug_le r =
  (n <- @Reader.readInt debug_le ;; @Reader.readBytes debug_le n) r.
Proof.
  intros m bs r.
  assert (H1 : Mem.load (Reader.mem r) (Reader.current_ r) 4 = Some bs)
    by reflexivity.
  assert (H2 : 0 <= @from_bytes debug_le int32_t bs) by by_computation.
  repeat (split; [assumption |]).
  exact (@readTextString_is_readInt_then_readBytes debug_le r bs H1 H2).
Defined.

Lemma writes_append_witness :
  let ops := [WriteInt 42; WriteBool true; WriteBytes [Byte.x41; Byte.x42] 2] in
  let w := Writer.mk (repeat Byte.xff 8) 0 8 in
  writer_ok w /\ Forall call_ok ops /\
  Forall (fun op => written op = requested op) ops /\
  fits w (total_requested ops) /\
  @run_writes debug_le ops w =
    Done tt (Writer.mk [Byte.x2a; Byte.x00; Byte.x00; Byte.x00; Byte.x01;
                        Byte.x41; Byte.x42; Byte.xff] 7 8).
Proof.
  intros ops w.
  assert (H1 : writer_ok w) by (apply writer_ok_intro; by_computation).
  assert (H2 : Forall call_ok ops) by (repeat constructor; by_computation).
  assert (H3 : Forall (fun op => written op = requested op) ops)
    by (repeat constructor).
  assert (H4 : fits w (total_requested ops)) by by_computation.
  repeat (split; [assumption |]).
  exact (proj1 (@writes_append debug_le ops w H1 H2 H3 H4)).
Defined.

Lemma sequence_round_trip_witness :
  let ops := [WriteInt 42; WriteBool true; WriteBinaryString [Byte.x41; Byte.x42] 2;
              WriteDouble 4611686018427387904] in
  let storage := repeat Byte.xff 32 in
  Forall value_ok ops /\
  0 <= 32 <= Mem.size storage /\ 32 < 2 ^ 64 /\ total_requested ops <= 32 /\
  exists w0 w' m n r',
    @Writer.new debug_le storage 32 = Done tt w0 /\
    @run_writes debug_le ops w0 = Done tt w' /\
    Writer.data w' = Done m w' /\
    Writer.size w' = Done n w' /\
    n = 19 /\
    @run_reads debug_le [ReadInt; ReadBool; ReadTextString; ReadDouble]
               (Reader.new m 0 n) =
      Done [RInt 42; RBool true; RBytes [Byte.x41; Byte.x42];
            RInt 4611686018427387904] r' /\
    Reader.current_ r' = Reader.end_ r'.
Proof.
  intros ops storage.
  assert (H1 : Forall value_ok ops) by (repeat constructor; by_computation).
  assert (H2 : 0 <= 32 <= Mem.size storage) by by_computation.
  assert (H3 : 32 < 2 ^ 64) by reflexivity.
  assert (H4 : total_requested ops <= 32) by by_computation.
  repeat (split; [assumption |]).
  exact (proj2 (@sequence_round_trip debug_le ops H1) storage 32 H2 H3 H4).
Defined.

Lemma writeBinaryString_checks_once_witness :
  let value := [Byte.x41; Byte.x42] in
  let roomy := Writer.mk (repeat Byte.xff 6) 0 6 in
  let tight := Writer.mk (repeat Byte.xff 5) 0 5 in
  writer_ok roomy /\ writer_ok tight /\ 0 <= 2 <= Mem.size value /\
  fits roomy (2 + 4) /\
  @NDEBUG debug_le = false /\ fits tight 4 /\ ~ fits tight (2 + 4) /\
  Writer.position_ tight + 2 + 4 < 2 ^ 64 /\
  @Writer.writeBinaryString debug_le value 2 roomy =
    (@Writer.writeInt debug_le (cast int32_t 2) ;;
     @Writer.writeBytes debug_le value 2) roomy /\
  @Writer.writeBinaryString debug_le value 2 tight = Abort tight /\
  (@Writer.writeInt debug_le (cast int32_t 2) ;;
   @Writer.writeBytes debug_le value 2) tight =
  Abort (Writer.mk [Byte.x02; Byte.x00; Byte.x00; Byte.x00; Byte.xff] 4 5).
Proof.
  intros value roomy tight.
  assert (H1 : writer_ok roomy) by (apply writer_ok_intro; by_computation).
  assert (H2 : writer_ok tight) by (apply writer_ok_intro; by_computation).
  assert (H3 : 0 <= 2 <= Mem.size value) by by_computation.
  assert (H4 : fits roomy (2 + 4)) by by_computation.
  assert (H5 : @NDEBUG debug_le = false) by reflexivity.
  assert (H6 : fits tight 4) by by_computation.
  assert (H7 : ~ fits tight (2 + 4)) by (vm_compute; intuition congruence).
  assert (H8 : Writer.position_ tight + 2 + 4 < 2 ^ 64) by reflexivity.
  repeat (split; [assumption |]).
  split.
  - exact (proj1 (@writeBinaryString_checks_once debug_le value 2 roomy H1 H3) H4).
  - exact (proj2 (@writeBinaryString_checks_once debug_le value 2 tight H2 H3)
                 H5 H6 H7 H8).
Defined.

Lemma back_patching_writes_the_same_string_witness :
  let payload := [Byte.x41; Byte.x42] in
  let w := Writer.mk (repeat Byte.xff 8) 1 8 in
  writer_ok w /\ 0 <= 2 <= Mem.size payload /\ fits w (2 + 4) /\
  @length_prefixed_by_back_patch debug_le payload 2 w =
  @Writer.writeBinaryString debug_le payload 2 w.
Proof.
  intros payload w.
  assert (H1 : writer_ok w) by (apply writer_ok_intro; by_computation).
  assert (H2 : 0 <= 2 <= Mem.size payload) by by_computation.
  assert (H3 : fits w (2 + 4)) by by_computation.
  repeat (split; [assumption |]).
  exact (proj1 (@back_patching_writes_the_same_string debug_le payload 2 w H1 H2 H3)).
Defined.

Lemma writeBytes_in_two_pieces_witness :
  let a := [Byte.x01] in
  let b := [Byte.x02; Byte.x03] in
  let w := Writer.mk (repeat Byte.xff 4) 0 4 in
  writer_ok w /\ fits w (Mem.size a + Mem.size b) /\
  @Writer.writeBytes debug_le (a ++ b) (Mem.size a + Mem.size b) w =
  (@Writer.writeBytes debug_le a (Mem.size a) ;;
   @Writer.writeBytes debug_le b (Mem.size b)) w.
Proof.
  intros a b w.
  assert (H1 : writer_ok w) by (apply writer_ok_intro; by_computation).
  assert (H2 : fits w (Mem.size a + Mem.size b)) by by_computation.
  repeat (split; [assumption |]).
  exact (proj1 (@writeBytes_in_two_pieces debug_le a b w H1 H2)).
Defined.

Lemma zero_fill_reads_as_zero_witness :
  let w := Writer.mk (repeat Byte.xff 8) 0 8 in
  writer_ok w /\ 0 <= 8 /\ fits w 8 /\
  fixed_width ReadLong = Some 8 /\ 8 <= 8 /\
  exists w',
    @Writer.writeZeros debug_le 8 w = Done tt w' /\
    @run_read debug_le ReadLong (Reader.new (Writer.buffer_ w') 0 8) =
    Done (RInt 0) (Reader.mk (Writer.buffer_ w') 8 8).
Proof.
  intros w.
  assert (H1 : writer_ok w) by (apply writer_ok_intro; by_computation).
  assert (H2 : 0 <= 8) by lia.
  assert (H3 : fits w 8) by by_computation.
  assert (H4 : fixed_width ReadLong = Some 8) by reflexivity.
  assert (H5 : 8 <= 8) by lia.
  repeat (split; [assumption |]).
  destruct (@zero_fill_reads_as_zero debug_le 8 w ReadLong 8 H1 H2 H3 H4 H5)
    as (w' & Hw & _ & Hr).
  exists w'. split; [exact Hw |].
  exact (Hr (Reader.new (Writer.buffer_ w') 0 8) eq_refl eq_refl).
Defined.
